(** * Havsyn: ingestion, sequencing and session lifecycle of the order-book viewer

    A shallow embedding of the two React components of the repository:

    - [Queued]: the multi-symbol application (bounded message queue,
      single-flight processor, session controller);
    - [Basic]: the single-symbol application [src/App.jsx].

    The order-book engine (the WASM class [WasmOrderbook]) and the browser
    (WebSocket, timers, React's scheduling of effects) are collaborators of
    the code.  The engine is an interface ([Class]) the development is
    parametric in; the browser is a set of events whose handlers are the
    closures of the source. *)

From Stdlib Require Import QArith Qround Ascii Lia Lqa.
From stdpp Require Import gmap strings list.

Local Open Scope string_scope.
Local Open Scope Z_scope.
Local Open Scope list_scope.

(** ** JavaScript values the code inspects *)

(** A raw inbound payload, [event.data] of a text frame. *)
Definition Msg := string.

(** JavaScript numbers that the code only compares with zero or passes on
    are exact rationals; [None] is [undefined]/[null]. *)
Definition num := Q.

(** [x > 0] in JavaScript for an optional number: false on [undefined]. *)
Definition gt0 (x : option num) : bool :=
  match x with
  | Some q => negb (Qle_bool q 0)
  | None => false
  end.

(** [c + 1] on a double that counts up from zero: exact below 2^53, and
    2^53 + 1 rounds back to 2^53. *)
Definition js_succ (c : Z) : Z :=
  if c <? 2 ^ 53 then c + 1 else c.

(** What a [catch (e)] clause can receive from the engine. *)
Inductive JsThrown :=
| ThrownNullish                       (* throw undefined / throw null *)
| ThrownString (s : string)           (* a primitive string: no [message] *)
| ThrownError (message : string).     (* an Error object *)

(** How a call completes. *)
Inductive Completion (A : Type) :=
| Returns (a : A)
| Throws (e : JsThrown).
Arguments Returns {A} a.
Arguments Throws {A} e.

(** [haystack.includes(needle)]. *)
Fixpoint includes (needle haystack : string) : bool :=
  if String.prefix needle haystack then true
  else match haystack with
       | EmptyString => false
       | String _ rest => includes needle rest
       end.

(** [l.slice(-n)]: the last [n] elements, the whole array when shorter. *)
Definition slice_last {A} (n : nat) (l : list A) : list A :=
  drop (length l - n) l.

(** A price level as the engine returns it, and as the component stores it
    ([[l.price, l.qty]]). *)
Record Level := { price : num; qty : num }.

Definition level_pair (l : Level) : num * num := (price l, qty l).

(** The object [apply_and_get] returns. *)
Record BookResult := {
  msg_type : string;
  r_bids : list Level;
  r_asks : list Level;
  r_spread : option num;
  r_mid_price : option num
}.

(** The object literal handed to [JSON.stringify] in [ws.onopen]; the text
    sent is its serialisation. *)
Record SubscribeParams := {
  channel : string;
  p_symbol : list string;
  depth : Z
}.

Record Request := {
  method : string;
  params : SubscribeParams
}.

Definition subscribe_request (symbol : string) : Request :=
  {| method := "subscribe";
     params := {| channel := "book"; p_symbol := [symbol]; depth := 25 |} |}.

Definition WS_URL : string := "wss://ws.kraken.com/v2".

(** ** The engine collaborator *)

(** The methods of the WASM class the two components call; [E] is the state
    behind a handle.  [free] reports whether the release threw. *)
Class WasmOrderbook (E : Type) := {
  with_depth : string -> Z -> E;
  set_precision : E -> Z -> Z -> E;
  apply_and_get : E -> Msg -> Z -> E * Completion (option BookResult);
  free : E -> E * Completion unit;
  (* the older interface, used by [Basic] *)
  new_book : string -> E;
  apply_message : E -> Msg -> E * Completion string;
  get_best_bid : E -> option num;
  get_best_ask : E -> option num;
  get_mid_price : E -> option num;
  get_spread : E -> option num;
  get_top_bids : E -> Z -> list Level;
  get_top_asks : E -> Z -> list Level
}.

(** ** The multi-symbol application *)

Module Queued.

Definition SYMBOLS : list string :=
  ["BTC/USD"; "ETH/USD"; "SOL/USD"; "XRP/USD"; "ADA/USD"].

(** Precision settings for each symbol (price precision, quantity
    precision). *)
Definition SYMBOL_PRECISION : gmap string (Z * Z) :=
  list_to_map [("BTC/USD", (1, 8)); ("ETH/USD", (2, 8)); ("SOL/USD", (2, 8));
               ("XRP/USD", (5, 8)); ("ADA/USD", (6, 8))].

(** [SYMBOL_PRECISION[symbol] || [2, 8]]. *)
Definition precision_of (symbol : string) : Z * Z :=
  default (2, 8) (SYMBOL_PRECISION !! symbol).
Arguments precision_of : simpl never.

(** *** State of the component *)

(** The [useState] cells. *)
Record State := {
  symbol : string;
  connected : bool;
  bids : list (num * num);
  asks : list (num * num);
  spread : option num;
  midPrice : option num;
  updateCount : Z;
  checksumValid : bool;
  sdkReady : bool
}.

(** A [WasmOrderbook] object: its identity and the engine state behind
    it. *)
Record Handle (E : Type) := { hid : nat; eng : E }.
Arguments hid {E} _.
Arguments eng {E} _.

(** The [useRef] cells.  A socket is named by the number of the effect run
    that created it. *)
Record Refs (E : Type) := {
  wsRef : option nat;
  bookRef : option (Handle E);
  messageQueueRef : list Msg;
  processingRef : bool;
  currentSymbolRef : string
}.
Arguments wsRef {E} _.
Arguments bookRef {E} _.
Arguments messageQueueRef {E} _.
Arguments processingRef {E} _.
Arguments currentSymbolRef {E} _.

(** What one run of the connect effect leaves behind: the variables its
    closures capture ([symbol], [mounted]) and the socket it created. *)
Inductive ReadyState := CONNECTING | OPEN | CLOSING | CLOSED.

Record Session := {
  s_symbol : string;
  mounted : bool;
  readyState : ReadyState;
  opened : bool                   (* the open event was delivered *)
}.

(** Calls that leave the component, in the order they are made.
    [EvDiscard] is a history entry: it names a message that
    [slice(-50)] threw away. *)
Inductive Event :=
| EvCreate (h : nat) (sym : string) (depth : Z)
| EvSetPrecision (h : nat) (p q : Z)
| EvApply (h : nat) (m : Msg) (depth : Z)
| EvFree (h : nat)
| EvNewSocket (sid : nat) (url : string)
| EvSend (sid : nat) (r : Request)
| EvClose (sid : nat)
| EvDiscard (m : Msg).

(** The browser and React around the component. *)
Record Host := {
  sessions : list Session;        (* effect runs that opened a socket *)
  cleanupOf : option nat;         (* the connect effect's pending cleanup *)
  timers : nat;                   (* pending setTimeout(processNextMessage, 0) *)
  nextHandle : nat;               (* engine handles created so far *)
  alive : bool;                   (* the component is mounted *)
  trace : list Event
}.

Record World (E : Type) := {
  st : State;
  refs : Refs E;
  host : Host
}.
Arguments st {E} _.
Arguments refs {E} _.
Arguments host {E} _.

Section Component.

Context {E : Type} `{WasmOrderbook E}.

Implicit Types (w : World E) (m : Msg) (sid : nat).

(** *** Writing one cell *)

Definition on_st (f : State -> State) w : World E :=
  {| st := f (st w); refs := refs w; host := host w |}.
Definition on_refs (f : Refs E -> Refs E) w : World E :=
  {| st := st w; refs := f (refs w); host := host w |}.
Definition on_host (f : Host -> Host) w : World E :=
  {| st := st w; refs := refs w; host := f (host w) |}.

Definition setSymbol (v : string) : World E -> World E :=
  on_st (fun s => {| symbol := v; connected := connected s; bids := bids s;
    asks := asks s; spread := spread s; midPrice := midPrice s;
    updateCount := updateCount s; checksumValid := checksumValid s;
    sdkReady := sdkReady s |}).
Definition setConnected (v : bool) : World E -> World E :=
  on_st (fun s => {| symbol := symbol s; connected := v; bids := bids s;
    asks := asks s; spread := spread s; midPrice := midPrice s;
    updateCount := updateCount s; checksumValid := checksumValid s;
    sdkReady := sdkReady s |}).
Definition setBids (v : list (num * num)) : World E -> World E :=
  on_st (fun s => {| symbol := symbol s; connected := connected s; bids := v;
    asks := asks s; spread := spread s; midPrice := midPrice s;
    updateCount := updateCount s; checksumValid := checksumValid s;
    sdkReady := sdkReady s |}).
Definition setAsks (v : list (num * num)) : World E -> World E :=
  on_st (fun s => {| symbol := symbol s; connected := connected s;
    bids := bids s; asks := v; spread := spread s; midPrice := midPrice s;
    updateCount := updateCount s; checksumValid := checksumValid s;
    sdkReady := sdkReady s |}).
Definition setSpread (v : option num) : World E -> World E :=
  on_st (fun s => {| symbol := symbol s; connected := connected s;
    bids := bids s; asks := asks s; spread := v; midPrice := midPrice s;
    updateCount := updateCount s; checksumValid := checksumValid s;
    sdkReady := sdkReady s |}).
Definition setMidPrice (v : option num) : World E -> World E :=
  on_st (fun s => {| symbol := symbol s; connected := connected s;
    bids := bids s; asks := asks s; spread := spread s; midPrice := v;
    updateCount := updateCount s; checksumValid := checksumValid s;
    sdkReady := sdkReady s |}).
(** [setUpdateCount] takes an updater function, as in [c => c + 1]. *)
Definition setUpdateCount (f : Z -> Z) : World E -> World E :=
  on_st (fun s => {| symbol := symbol s; connected := connected s;
    bids := bids s; asks := asks s; spread := spread s;
    midPrice := midPrice s; updateCount := f (updateCount s);
    checksumValid := checksumValid s; sdkReady := sdkReady s |}).
Definition setChecksumValid (v : bool) : World E -> World E :=
  on_st (fun s => {| symbol := symbol s; connected := connected s;
    bids := bids s; asks := asks s; spread := spread s;
    midPrice := midPrice s; updateCount := updateCount s;
    checksumValid := v; sdkReady := sdkReady s |}).
Definition setSdkReady (v : bool) : World E -> World E :=
  on_st (fun s => {| symbol := symbol s; connected := connected s;
    bids := bids s; asks := asks s; spread := spread s;
    midPrice := midPrice s; updateCount := updateCount s;
    checksumValid := checksumValid s; sdkReady := v |}).

Definition set_wsRef (v : option nat) : World E -> World E :=
  on_refs (fun r => {| wsRef := v; bookRef := bookRef r;
    messageQueueRef := messageQueueRef r; processingRef := processingRef r;
    currentSymbolRef := currentSymbolRef r |}).
Definition set_bookRef (v : option (Handle E)) : World E -> World E :=
  on_refs (fun r => {| wsRef := wsRef r; bookRef := v;
    messageQueueRef := messageQueueRef r; processingRef := processingRef r;
    currentSymbolRef := currentSymbolRef r |}).
Definition set_messageQueueRef (v : list Msg) : World E -> World E :=
  on_refs (fun r => {| wsRef := wsRef r; bookRef := bookRef r;
    messageQueueRef := v; processingRef := processingRef r;
    currentSymbolRef := currentSymbolRef r |}).
Definition set_processingRef (v : bool) : World E -> World E :=
  on_refs (fun r => {| wsRef := wsRef r; bookRef := bookRef r;
    messageQueueRef := messageQueueRef r; processingRef := v;
    currentSymbolRef := currentSymbolRef r |}).
Definition set_currentSymbolRef (v : string) : World E -> World E :=
  on_refs (fun r => {| wsRef := wsRef r; bookRef := bookRef r;
    messageQueueRef := messageQueueRef r; processingRef := processingRef r;
    currentSymbolRef := v |}).

Definition set_sessions (v : list Session) : World E -> World E :=
  on_host (fun h => {| sessions := v; cleanupOf := cleanupOf h;
    timers := timers h; nextHandle := nextHandle h; alive := alive h;
    trace := trace h |}).
Definition set_cleanupOf (v : option nat) : World E -> World E :=
  on_host (fun h => {| sessions := sessions h; cleanupOf := v;
    timers := timers h; nextHandle := nextHandle h; alive := alive h;
    trace := trace h |}).
Definition set_timers (v : nat) : World E -> World E :=
  on_host (fun h => {| sessions := sessions h; cleanupOf := cleanupOf h;
    timers := v; nextHandle := nextHandle h; alive := alive h;
    trace := trace h |}).
Definition set_nextHandle (v : nat) : World E -> World E :=
  on_host (fun h => {| sessions := sessions h; cleanupOf := cleanupOf h;
    timers := timers h; nextHandle := v; alive := alive h;
    trace := trace h |}).
Definition set_alive (v : bool) : World E -> World E :=
  on_host (fun h => {| sessions := sessions h; cleanupOf := cleanupOf h;
    timers := timers h; nextHandle := nextHandle h; alive := v;
    trace := trace h |}).
Definition emit (e : Event) : World E -> World E :=
  on_host (fun h => {| sessions := sessions h; cleanupOf := cleanupOf h;
    timers := timers h; nextHandle := nextHandle h; alive := alive h;
    trace := trace h ++ [e] |}).

(** Short names for the cells the statements read. *)
Definition queue w : list Msg := messageQueueRef (refs w).
Definition processing w : bool := processingRef (refs w).
Definition book w : option (Handle E) := bookRef (refs w).
Definition log w : list Event := trace (host w).

(** [setTimeout(processNextMessage, 0)]. *)
Definition setTimeout_processNextMessage w : World E :=
  set_timers (S (timers (host w))) w.

(** *** Control flow *)

(** A piece of handler code: it changes the component and returns or
    throws. *)
Definition M (A : Type) : Type := World E -> World E * Completion A.

Definition ret {A} (a : A) : M A := fun w => (w, Returns a).

Definition lift (f : World E -> World E) : M unit :=
  fun w => (f w, Returns ()).

(** [m; k]: [k] does not run when [m] throws. *)
Definition seq {A} (m : M unit) (k : M A) : M A :=
  fun w =>
    match m w with
    | (w', Returns _) => k w'
    | (w', Throws e) => (w', Throws e)
    end.

(** [try { m } catch (e) { h e }]. *)
Definition try_catch (m : M unit) (h : JsThrown -> M unit) : M unit :=
  fun w =>
    match m w with
    | (w', Returns a) => (w', Returns a)
    | (w', Throws e) => h e w'
    end.

(** [try { m } finally { f }]: [f] always runs, and the completion is the
    one of [m] unless [f] throws. *)
Definition try_finally (m : M unit) (f : M unit) : M unit :=
  fun w =>
    let '(w', c) := m w in
    match f w' with
    | (w'', Returns _) => (w'', c)
    | (w'', Throws e) => (w'', Throws e)
    end.

(** *** The sequential processor *)

(** The body of the [if (result && ...)] branch. *)
Definition publish (r : BookResult) w : World E :=
  setChecksumValid true
    (setUpdateCount js_succ
      (setMidPrice (r_mid_price r)
        (setSpread (r_spread r)
          (setAsks (level_pair <$> r_asks r)
            (setBids (level_pair <$> r_bids r) w))))).

Definition recognised (r : BookResult) : bool :=
  bool_decide (msg_type r = "update") || bool_decide (msg_type r = "snapshot").

(** The [try] block: the engine call and the publication. *)
Definition apply_and_publish (msg : Msg) : M unit :=
  fun w =>
    match book w with
    | None => (w, Throws (ThrownError "TypeError"))
    | Some b =>
        let '(e', out) := apply_and_get (eng b) msg 10 in
        let w := emit (EvApply (hid b) msg 10)
                   (set_bookRef (Some {| hid := hid b; eng := e' |}) w) in
        match out with
        | Returns (Some r) =>
            if recognised r then (publish r w, Returns ())
            else (w, Returns ())
        | Returns None => (w, Returns ())
        | Throws e => (w, Throws e)
        end
    end.

(** The [catch (e)] block.  Reading [e.message] of [undefined] or [null]
    throws inside the handler; console output is not modelled. *)
Definition on_sdk_error (e : JsThrown) : M unit :=
  fun w =>
    match e with
    | ThrownNullish => (w, Throws (ThrownError "TypeError"))
    | ThrownString _ => (w, Returns ())
    | ThrownError message =>
        if bool_decide (message <> "") && includes "Checksum" message
        then (setChecksumValid false w, Returns ())
        else (w, Returns ())
    end.

(** The [finally] block. *)
Definition finish : M unit :=
  fun w =>
    let w := set_processingRef false w in
    if bool_decide (queue w = []) then (w, Returns ())
    else (setTimeout_processNextMessage w, Returns ()).

Definition processNextMessage : M unit :=
  fun w =>
    if processing w then (w, Returns ())
    else match queue w with
    | [] => (w, Returns ())
    | msg :: rest =>
      match book w with
      | None => (w, Returns ())
      | Some _ =>
        let w := set_processingRef true w in
        let w := set_messageQueueRef rest w in          (* shift() *)
        try_finally (try_catch (apply_and_publish msg) on_sdk_error) finish w
      end
    end.

(** *** The bounded queue *)

(** The overflow policy applied after [push]. *)
Definition overflow (q : list Msg) : list Msg :=
  if bool_decide (100 < length q)%nat then slice_last 50 q else q.

(** The entries [overflow] drops. *)
Definition discarded (q : list Msg) : list Msg :=
  if bool_decide (100 < length q)%nat then take (length q - 50) q else [].

Definition emit_all (es : list Event) w : World E :=
  foldl (fun w e => emit e w) w es.

(** [push] and the overflow policy. *)
Definition pushed (msg : Msg) w : World E :=
  let q := queue w ++ [msg] in
  set_messageQueueRef (overflow q) (emit_all (EvDiscard <$> discarded q) w).

Definition queueMessage (msg : Msg) : M unit :=
  fun w => processNextMessage (pushed msg w).

(** *** Sockets and the closures of one effect run *)

(** [ws.close()]: a socket that is connecting or open starts closing. *)
Definition closing (s : Session) : Session :=
  {| s_symbol := s_symbol s; mounted := mounted s;
     readyState := match readyState s with
                   | CONNECTING | OPEN => CLOSING
                   | r => r
                   end;
     opened := opened s |}.

Definition ws_close sid : M unit :=
  lift (fun w =>
    emit (EvClose sid)
      (set_sessions (alter closing sid (sessions (host w))) w)).

(** [mounted = false]. *)
Definition unmounting (s : Session) : Session :=
  {| s_symbol := s_symbol s; mounted := false;
     readyState := readyState s; opened := opened s |}.

(** The function the connect effect returns. *)
Definition connect_cleanup sid : M unit :=
  seq (lift (fun w =>
         set_sessions (alter unmounting sid (sessions (host w))) w))
      (ws_close sid).

(** [try { bookRef.current.free() } catch (e) { }]: whatever [free] does
    to the engine stays done, and what it throws is dropped. *)
Definition call_free (b : Handle E) : M unit :=
  fun w =>
    let '(e', c) := free (eng b) in
    (emit (EvFree (hid b))
       (set_bookRef (Some {| hid := hid b; eng := e' |}) w), c).

Definition try_free (b : Handle E) : M unit :=
  try_catch (call_free b) (fun _ => ret ()).          (* Ignore *)

(** The connect effect, from "Clear previous state" to the creation of the
    socket. *)
Definition clear_previous_state : M unit :=
  lift (fun w =>
    set_processingRef false
      (set_messageQueueRef []
        (setChecksumValid true
          (setUpdateCount (fun _ => 0)
            (setMidPrice None
              (setSpread None
                (setAsks []
                  (setBids [] w)))))))).

Definition cleanup_previous_orderbook : M unit :=
  fun w =>
    match book w with
    | Some b => seq (try_free b) (lift (set_bookRef None)) w
    | None => (w, Returns ())
    end.

Definition close_previous_websocket : M unit :=
  fun w =>
    match wsRef (refs w) with
    | Some sid => seq (ws_close sid) (lift (set_wsRef None)) w
    | None => (w, Returns ())
    end.

Definition create_orderbook : M unit :=
  lift (fun w =>
    let sym := symbol (st w) in
    let h := nextHandle (host w) in
    let e := with_depth sym 25 in
    let w := emit (EvCreate h sym 25) (set_nextHandle (S h) w) in
    let '(pricePrecision, qtyPrecision) := precision_of sym in
    let e := set_precision e pricePrecision qtyPrecision in
    emit (EvSetPrecision h pricePrecision qtyPrecision)
      (set_bookRef (Some {| hid := h; eng := e |}) w)).

Definition new_session (sym : string) : Session :=
  {| s_symbol := sym; mounted := true; readyState := CONNECTING;
     opened := false |}.

Definition connect_websocket : M unit :=
  lift (fun w =>
    let sid := length (sessions (host w)) in
    let s := new_session (symbol (st w)) in
    set_cleanupOf (Some sid)
      (set_wsRef (Some sid)
        (emit (EvNewSocket sid WS_URL)
          (set_sessions (sessions (host w) ++ [s]) w)))).

Definition connect_effect : M unit :=
  fun w =>
    if negb (sdkReady (st w)) then (set_cleanupOf None w, Returns ())
    else seq clear_previous_state
          (seq cleanup_previous_orderbook
            (seq close_previous_websocket
              (seq create_orderbook connect_websocket))) w.

(** React runs the cleanup of the previous run, then the effect. *)
Definition rerun_connect : M unit :=
  fun w =>
    match cleanupOf (host w) with
    | Some sid => seq (connect_cleanup sid) connect_effect w
    | None => connect_effect w
    end.

(** The cleanup of the previous run followed by the effect: the effect
    starts from the world in which the previous run is retired. *)
Definition after_cleanup w : World E :=
  match cleanupOf (host w) with
  | Some sid => fst (connect_cleanup sid w)
  | None => w
  end.

(** The cleanup of the last effect ("Cleanup on unmount"). *)
Definition unmount_cleanup : M unit :=
  seq (fun w => match book w with
                | Some b => try_free b w
                | None => (w, Returns ())
                end)
      (fun w => match wsRef (refs w) with
                | Some sid => ws_close sid w
                | None => (w, Returns ())
                end).

(** *** Handlers *)

Definition opening (s : Session) : Session :=
  {| s_symbol := s_symbol s; mounted := mounted s;
     readyState := match readyState s with
                   | CONNECTING => OPEN
                   | r => r
                   end;
     opened := true |}.

Definition closed (s : Session) : Session :=
  {| s_symbol := s_symbol s; mounted := mounted s;
     readyState := CLOSED; opened := opened s |}.

Definition ws_onopen sid w : World E :=
  match sessions (host w) !! sid with
  | Some s =>
      let w := set_sessions (alter opening sid (sessions (host w))) w in
      if negb (mounted s) then w
      else emit (EvSend sid (subscribe_request (s_symbol s)))
             (setConnected true w)
  | None => w
  end.

Definition ws_onmessage sid (data : Msg) : M unit := fun w =>
  match sessions (host w) !! sid with
  | Some s =>
      if negb (mounted s) then (w, Returns ())
      else queueMessage data w
  | None => (w, Returns ())
  end.

Definition ws_onclose sid w : World E :=
  match sessions (host w) !! sid with
  | Some s =>
      let w := set_sessions (alter closed sid (sessions (host w))) w in
      if negb (mounted s) then w
      else setConnected false w
  | None => w
  end.

(** [ws.onerror] only writes to the console. *)
Definition ws_onerror sid w : World E := w.

Definition handleSymbolChange (newSymbol : string) : M unit :=
  fun w =>
    if bool_decide (newSymbol <> symbol (st w))
    then let w := setSymbol newSymbol w in
         rerun_connect (set_currentSymbolRef newSymbol w)
    else (w, Returns ()).

(** [init()] resolved: [setSdkReady(true)] and the render it causes. *)
Definition init_resolved : M unit :=
  fun w =>
    if alive (host w) && negb (sdkReady (st w))
    then rerun_connect (setSdkReady true w)
    else (w, Returns ()).

(** The component goes away: the cleanups run in the order the effects are
    declared. *)
Definition unmount : M unit :=
  seq (fun w => match cleanupOf (host w) with
                | Some sid => connect_cleanup sid w
                | None => (w, Returns ())
                end)
      (seq unmount_cleanup
           (lift (fun w => set_alive false (set_cleanupOf None w)))).

(** A timer set by [finish] fires. *)
Definition timer_fires : M unit :=
  fun w => processNextMessage (set_timers (pred (timers (host w))) w).

(** *** The events of a run *)

Inductive Input :=
| InitResolved
| Select (s : string)
| Unmount
| WsOpen (sid : nat)
| WsMessage (sid : nat) (data : Msg)
| WsClose (sid : nat)
| WsError (sid : nat)
| Timer.

(** An exception that leaves a handler is reported by the browser and goes
    no further. *)
Definition step (i : Input) w : World E :=
  match i with
  | InitResolved => fst (init_resolved w)
  | Select s => fst (handleSymbolChange s w)
  | Unmount => fst (unmount w)
  | WsOpen sid => ws_onopen sid w
  | WsMessage sid data => fst (ws_onmessage sid data w)
  | WsClose sid => ws_onclose sid w
  | WsError sid => ws_onerror sid w
  | Timer => fst (timer_fires w)
  end.

(** What the browser and the page can deliver in a state. *)
Definition enabled (i : Input) w : Prop :=
  match i with
  | InitResolved => True
  | Select s => alive (host w) = true /\ s ∈ SYMBOLS
  | Unmount => alive (host w) = true
  | WsOpen sid =>
      exists s, sessions (host w) !! sid = Some s /\
                opened s = false /\ readyState s <> CLOSED
  | WsMessage sid _ =>
      exists s, sessions (host w) !! sid = Some s /\
                opened s = true /\ readyState s <> CLOSED
  | WsClose sid =>
      exists s, sessions (host w) !! sid = Some s /\ readyState s <> CLOSED
  | WsError sid => is_Some (sessions (host w) !! sid)
  | Timer => (0 < timers (host w))%nat
  end.

Definition initial : World E :=
  {| st := {| symbol := "BTC/USD"; connected := false; bids := [];
              asks := []; spread := None; midPrice := None;
              updateCount := 0; checksumValid := true; sdkReady := false |};
     refs := {| wsRef := None; bookRef := None; messageQueueRef := [];
                processingRef := false; currentSymbolRef := "BTC/USD" |};
     host := {| sessions := []; cleanupOf := None; timers := 0;
                nextHandle := 0; alive := true; trace := [] |} |}.

Inductive reachable : World E -> Prop :=
| reach_initial : reachable initial
| reach_step w i : reachable w -> enabled i w -> reachable (step i w).

Definition run (ins : list Input) w : World E :=
  foldl (fun w i => step i w) w ins.

(** *** Reading the log *)

(** The payloads handed to the engine, in order. *)
Definition applied (l : list Event) : list Msg :=
  omap (fun e => match e with EvApply _ m _ => Some m | _ => None end) l.

(** The payloads the overflow policy dropped, in order. *)
Definition dropped (l : list Event) : list Msg :=
  omap (fun e => match e with EvDiscard m => Some m | _ => None end) l.

(** The payloads that left the head of the queue, either way. *)
Definition departed (l : list Event) : list Msg :=
  omap (fun e => match e with
                 | EvApply _ m _ | EvDiscard m => Some m
                 | _ => None
                 end) l.

(** The requests sent on one socket. *)
Definition sends_of sid (l : list Event) : list Request :=
  omap (fun e => match e with
                 | EvSend sid' r => if bool_decide (sid' = sid) then Some r
                                    else None
                 | _ => None
                 end) l.

(** *** What happens inside one session *)

Inductive Op :=
| Enqueue (m : Msg)       (* queueMessage(m) *)
| Tick.                   (* a pending processNextMessage timer fires *)

Definition do_op (o : Op) w : World E :=
  match o with
  | Enqueue m => fst (queueMessage m w)
  | Tick => fst (timer_fires w)
  end.

Definition session_run (ops : list Op) w : World E :=
  foldl (fun w o => do_op o w) w ops.

Definition enqueued (ops : list Op) : list Msg :=
  omap (fun o => match o with Enqueue m => Some m | Tick => None end) ops.

(** The payloads a run delivers on one socket. *)
Definition delivered sid (ins : list Input) : list Msg :=
  omap (fun i => match i with
                 | WsMessage sid' data =>
                     if bool_decide (sid' = sid) then Some data else None
                 | _ => None
                 end) ins.

(** The cells that only the session controller writes. *)
Definition same_session w w' : Prop :=
  sessions (host w') = sessions (host w) /\
  cleanupOf (host w') = cleanupOf (host w) /\
  nextHandle (host w') = nextHandle (host w) /\
  alive (host w') = alive (host w) /\
  wsRef (refs w') = wsRef (refs w) /\
  currentSymbolRef (refs w') = currentSymbolRef (refs w) /\
  hid <$> book w' = hid <$> book w /\
  symbol (st w') = symbol (st w) /\
  sdkReady (st w') = sdkReady (st w) /\
  connected (st w') = connected (st w).

(** A log entry the queue and the processor can produce for the engine
    handle [h]. *)
Definition queue_event (h : option nat) (e : Event) : Prop :=
  match e with
  | EvApply h' _ d => h = Some h' /\ d = 10
  | EvDiscard _ => True
  | _ => False
  end.

(** The published book is the one of the result [r]. *)
Definition shows (r : BookResult) w : Prop :=
  bids (st w) = level_pair <$> r_bids r /\
  asks (st w) = level_pair <$> r_asks r /\
  spread (st w) = r_spread r /\
  midPrice (st w) = r_mid_price r.

(** The published book and the counter are those of [w]. *)
Definition same_book w w' : Prop :=
  bids (st w') = bids (st w) /\
  asks (st w') = asks (st w) /\
  spread (st w') = spread (st w) /\
  midPrice (st w') = midPrice (st w) /\
  updateCount (st w') = updateCount (st w).

(** *** What holds between two events *)

(** Nothing is in flight and nothing waits. *)
Definition quiet w : Prop := processing w = false /\ queue w = [].

(** Only the run of the connect effect whose cleanup is pending can have
    [mounted] set. *)
Definition one_active w : Prop :=
  forall sid s, sessions (host w) !! sid = Some s -> mounted s = true ->
    cleanupOf (host w) = Some sid.

(** The run whose cleanup is pending is the session on screen. *)
Definition active_ok w : Prop :=
  forall sid, cleanupOf (host w) = Some sid ->
    exists s, sessions (host w) !! sid = Some s /\ mounted s = true /\
      s_symbol s = symbol (st w) /\ wsRef (refs w) = Some sid /\
      is_Some (book w) /\ alive (host w) = true /\ sdkReady (st w) = true.

(** A socket has sent nothing, or its one subscription. *)
Definition sends_ok w : Prop :=
  forall sid, sends_of sid (log w) = [] \/
    exists s, sessions (host w) !! sid = Some s /\ opened s = true /\
      sends_of sid (log w) = [subscribe_request (s_symbol s)].

Definition Inv w : Prop :=
  quiet w /\ one_active w /\ active_ok w /\ sends_ok w.

(** The sessions once the pending cleanup of the connect effect has run. *)
Definition retired w : list Session :=
  match cleanupOf (host w) with
  | Some sid => alter closing sid (alter unmounting sid (sessions (host w)))
  | None => sessions (host w)
  end.

(** The sessions once the socket in [wsRef] has been closed as well. *)
Definition torn_down w : list Session :=
  match wsRef (refs w) with
  | Some old => alter closing old (retired w)
  | None => retired w
  end.

(** The sockets of [l] are still there in [l'], with what their closures
    captured, and none has [mounted] raised again. *)
Definition keeps (l l' : list Session) : Prop :=
  forall sid s, l !! sid = Some s ->
    exists s', l' !! sid = Some s' /\ opened s' = opened s /\
      s_symbol s' = s_symbol s /\ (mounted s' = true -> mounted s = true).

(** A run in which every event can be delivered when its turn comes. *)
Fixpoint valid (ins : list Input) w : Prop :=
  match ins with
  | [] => True
  | i :: ins => enabled i w /\ valid ins (step i w)
  end.

(** The same two questions, answered by computation. *)
Definition is_closed (r : ReadyState) : bool :=
  match r with CLOSED => true | _ => false end.

Definition enabledb (i : Input) w : bool :=
  match i with
  | InitResolved => true
  | Select s => alive (host w) && bool_decide (s ∈ SYMBOLS)
  | Unmount => alive (host w)
  | WsOpen sid =>
      match sessions (host w) !! sid with
      | Some s => negb (opened s) && negb (is_closed (readyState s))
      | None => false
      end
  | WsMessage sid _ =>
      match sessions (host w) !! sid with
      | Some s => opened s && negb (is_closed (readyState s))
      | None => false
      end
  | WsClose sid =>
      match sessions (host w) !! sid with
      | Some s => negb (is_closed (readyState s))
      | None => false
      end
  | WsError sid =>
      match sessions (host w) !! sid with
      | Some _ => true
      | None => false
      end
  | Timer => bool_decide (0 < timers (host w))%nat
  end.

Fixpoint validb (ins : list Input) w : bool :=
  match ins with
  | [] => true
  | i :: ins => enabledb i w && validb ins (step i w)
  end.

(** What the session controller decided, as opposed to the state of the
    sockets and of the book. *)
Definition steady w w' : Prop :=
  cleanupOf (host w') = cleanupOf (host w) /\
  nextHandle (host w') = nextHandle (host w) /\
  length (sessions (host w')) = length (sessions (host w)) /\
  alive (host w') = alive (host w) /\
  wsRef (refs w') = wsRef (refs w) /\
  hid <$> book w' = hid <$> book w /\
  symbol (st w') = symbol (st w) /\
  sdkReady (st w') = sdkReady (st w).

(** A log entry that the traffic of a session can produce, for the engine
    handle [h] and the socket [sid]. *)
Definition traffic_event (h : option nat) (sid : option nat) (e : Event)
    : Prop :=
  match e with
  | EvApply h' _ d => h = Some h' /\ d = 10
  | EvSend sid' _ => sid = Some sid'
  | EvDiscard _ => True
  | _ => False
  end.

(** Events of the sockets and of the timers, as opposed to those that
    start or end a session. *)
Definition traffic (i : Input) : bool :=
  match i with
  | WsOpen _ | WsMessage _ _ | WsClose _ | WsError _ | Timer => true
  | InitResolved | Select _ | Unmount => false
  end.

(** *** The classes of outcome *)

(** What the processor makes of the answer of the engine: a book to
    publish, an integrity failure, or nothing. *)
Inductive Outcome :=
| Published (r : BookResult)
| IntegrityFailure
| Ignored.

Definition classify (out : Completion (option BookResult)) : Outcome :=
  match out with
  | Returns (Some r) => if recognised r then Published r else Ignored
  | Returns None => Ignored
  | Throws (ThrownError message) =>
      if includes "Checksum" message then IntegrityFailure else Ignored
  | Throws _ => Ignored
  end.

(** *** The discipline of engine handles and sockets *)

(** Reading the log as the life of the engine handles: a handle is created
    when none is live and takes the next number, it is configured and
    applied to only while it is live, and it is released once.  The result
    is the handle that is live at the end and the number of handles
    created, or [None] when the log breaks the discipline. *)
Fixpoint handles_from (live : option nat) (next : nat) (l : list Event)
    : option (option nat * nat) :=
  match l with
  | [] => Some (live, next)
  | e :: l =>
      match e with
      | EvCreate h _ _ =>
          match live with
          | None => if bool_decide (h = next)
                    then handles_from (Some h) (S next) l else None
          | Some _ => None
          end
      | EvSetPrecision h _ _ | EvApply h _ _ =>
          if bool_decide (live = Some h) then handles_from live next l
          else None
      | EvFree h =>
          if bool_decide (live = Some h) then handles_from None next l
          else None
      | _ => handles_from live next l
      end
  end.

(** The handle an entry of the log is about. *)
Definition handle_of (e : Event) : option nat :=
  match e with
  | EvCreate h _ _ | EvSetPrecision h _ _ | EvApply h _ _ | EvFree h => Some h
  | _ => None
  end.

(** The handle the component may still call. *)
Definition live_handle w : option nat :=
  if alive (host w) then hid <$> book w else None.

(** A socket on which [close()] has had its effect, or that the other side
    closed. *)
Definition is_shut (r : ReadyState) : bool :=
  match r with CLOSING | CLOSED => true | _ => false end.

(** Every run of the connect effect that is no longer the current one has
    its socket shut. *)
Definition sockets_ok w : Prop :=
  forall sid s, sessions (host w) !! sid = Some s -> mounted s = false ->
    is_shut (readyState s) = true.

(** The socket of the current run, as long as its open event has not
    come, is connecting, unless the other side closed it. *)
Definition awaiting_open w : Prop :=
  forall sid s, sessions (host w) !! sid = Some s -> mounted s = true ->
    opened s = false -> readyState s = CONNECTING \/ readyState s = CLOSED.

(** What the processor and the overflow policy never had to do. *)
Definition unbuffered w : Prop :=
  timers (host w) = 0%nat /\ dropped (log w) = [].

(** Nothing has been created yet. *)
Definition pristine w : Prop :=
  log w = [] /\ sessions (host w) = [] /\ book w = None /\
  wsRef (refs w) = None /\ cleanupOf (host w) = None.

(** What holds between two events, beyond [Inv]. *)
Definition Inv2 w : Prop :=
  unbuffered w /\
  handles_from None 0 (log w) = Some (live_handle w, nextHandle (host w)) /\
  sockets_ok w /\
  currentSymbolRef (refs w) = symbol (st w) /\
  0 <= updateCount (st w) <= 2 ^ 53 /\
  (sdkReady (st w) = false -> pristine w) /\
  (alive (host w) = false -> cleanupOf (host w) = None).

(** The cells a user sees or a later handler reads, apart from the state
    of the sockets. *)
Definition same_but_sockets w w' : Prop :=
  st w' = st w /\ refs w' = refs w /\ log w' = log w /\
  timers (host w') = timers (host w) /\
  cleanupOf (host w') = cleanupOf (host w) /\
  nextHandle (host w') = nextHandle (host w) /\
  alive (host w') = alive (host w) /\
  length (sessions (host w')) = length (sessions (host w)).

End Component.

End Queued.

(** ** The single-symbol application ([src/App.jsx]) *)

Module Basic.

Definition SYMBOL : string := "BTC/USD".

(** The [useState] cells, the two refs, the [mounted] variable of the
    effect, and what was handed to [ws.send]. *)
Record World (E : Type) := {
  connected : bool;
  bids : list (num * num);
  asks : list (num * num);
  spread : option num;
  midPrice : option num;
  updateCount : Z;
  orderbookRef : option E;
  wsRef : bool;                    (* the socket exists *)
  mounted : bool;
  sent : list Request
}.
Arguments connected {E} _.
Arguments bids {E} _.
Arguments asks {E} _.
Arguments spread {E} _.
Arguments midPrice {E} _.
Arguments updateCount {E} _.
Arguments orderbookRef {E} _.
Arguments wsRef {E} _.
Arguments mounted {E} _.
Arguments sent {E} _.

Section Component.

Context {E : Type} `{WasmOrderbook E}.

Implicit Types (w : World E).

Definition initial : World E :=
  {| connected := false; bids := []; asks := []; spread := None;
     midPrice := None; updateCount := 0; orderbookRef := None;
     wsRef := false; mounted := true; sent := [] |}.

(** [connect()] after [await initWasm()]. *)
Definition connect w : World E :=
  {| connected := connected w; bids := bids w; asks := asks w;
     spread := spread w; midPrice := midPrice w;
     updateCount := updateCount w;
     orderbookRef := Some (new_book SYMBOL);
     wsRef := true; mounted := mounted w; sent := sent w |}.

Definition ws_onopen w : World E :=
  if negb (mounted w) then w
  else {| connected := true; bids := bids w; asks := asks w;
          spread := spread w; midPrice := midPrice w;
          updateCount := updateCount w; orderbookRef := orderbookRef w;
          wsRef := wsRef w; mounted := mounted w;
          sent := sent w ++ [subscribe_request SYMBOL] |}.

(** The [try] block of [ws.onmessage] once the message type is known to
    be a snapshot or an update. *)
Definition show_book (e : E) w : World E :=
  let bestBid := get_best_bid e in
  let bestAsk := get_best_ask e in
  let positive := gt0 bestBid && gt0 bestAsk in
  {| connected := connected w;
     bids := level_pair <$> get_top_bids e 10;
     asks := level_pair <$> get_top_asks e 10;
     spread := if positive then get_spread e else spread w;
     midPrice := if positive then get_mid_price e else midPrice w;
     updateCount := js_succ (updateCount w);
     orderbookRef := orderbookRef w;
     wsRef := wsRef w; mounted := mounted w; sent := sent w |}.

Definition set_orderbookRef (e : E) w : World E :=
  {| connected := connected w; bids := bids w; asks := asks w;
     spread := spread w; midPrice := midPrice w;
     updateCount := updateCount w; orderbookRef := Some e;
     wsRef := wsRef w; mounted := mounted w; sent := sent w |}.

(** [ws.onmessage]; the [catch] block is empty. *)
Definition ws_onmessage (data : Msg) w : World E :=
  if negb (mounted w) then w
  else match orderbookRef w with
       | None => w                      (* book.apply_message throws *)
       | Some e =>
           let '(e', out) := apply_message e data in
           let w := set_orderbookRef e' w in
           match out with
           | Returns msgType =>
               if bool_decide (msgType = "snapshot")
                  || bool_decide (msgType = "update")
               then show_book e' w
               else w
           | Throws _ => w              (* Ignore non-book messages *)
           end
       end.

Definition ws_onclose w : World E :=
  if negb (mounted w) then w
  else {| connected := false; bids := bids w; asks := asks w;
          spread := spread w; midPrice := midPrice w;
          updateCount := updateCount w; orderbookRef := orderbookRef w;
          wsRef := wsRef w; mounted := mounted w; sent := sent w |}.

End Component.

End Basic.

(** ** What the components display *)

Module Display.

(** *** [Number.prototype.toFixed] *)

(** The character of a decimal digit and back. *)
Definition digit (d : Z) : ascii := ascii_of_nat (48 + Z.to_nat d).

Definition digit_value (c : ascii) : Z := Z.of_nat (nat_of_ascii c) - 48.

Definition is_digit (c : ascii) : Prop := 0 <= digit_value c < 10.

(** The digits of the decimal representation of [n], most significant
    first; [fuel] bounds the number of digits. *)
Fixpoint digits_fuel (fuel : nat) (n : Z) (acc : list ascii) : list ascii :=
  match fuel with
  | O => acc
  | S k =>
      let acc := digit (n mod 10) :: acc in
      if n <? 10 then acc else digits_fuel k (n / 10) acc
  end.

Definition decimal (n : Z) : list ascii :=
  digits_fuel (S (Z.to_nat (Z.log2 n))) n [].

(** The number a string of digits stands for. *)
Definition value_of (l : list ascii) : Z :=
  foldl (fun acc c => 10 * acc + digit_value c) 0 l.

(** The integer [n] for which [n / 10^f - x] is closest to zero, the
    larger one when two are as close. *)
Definition nearest (f : nat) (x : Q) : Z :=
  Qfloor (x * inject_Z (10 ^ Z.of_nat f) + (1 # 2)).

(** Steps 10.b and 10.c of the algorithm, for [x >= 0]: the digits of
    [n], zeros in front until there are more than [f] of them, and the
    point before the last [f]. *)
Definition fixed_digits (f : nat) (x : Q) : list ascii :=
  let m := decimal (nearest f x) in
  if bool_decide (f = 0%nat) then m
  else
    let m := replicate (f + 1 - length m) "0"%char ++ m in
    let k := length m in
    take (k - f) m ++ "."%char :: drop (k - f) m.

(** [x.toFixed(f)] for a number written in fixed notation, that is, below
    10^21 in absolute value; [None] stands for the other numbers, which
    are written with an exponent. *)
Definition toFixed (f : nat) (x : Q) : option string :=
  let negative := negb (Qle_bool 0 x) in
  let x := if negative then Qopp x else x in
  if Qle_bool (inject_Z (10 ^ 21)) x then None
  else Some (String.string_of_list_ascii
               ((if negative then ["-"%char] else []) ++ fixed_digits f x)).

(** *** The formatting functions of the multi-symbol application *)

Definition formatPrice (price : num) : option string :=
  if Qle_bool 1000 price then toFixed 2 price
  else if Qle_bool 1 price then toFixed 4 price
  else toFixed 6 price.

Definition formatStatPrice (price : num) : option string :=
  if Qle_bool 100 price then toFixed 2 price
  else if Qle_bool 1 price then toFixed 4 price
  else if Qle_bool (1 # 100) price then toFixed 5 price
  else toFixed 6 price.

(** The digits after the point that the two functions choose. *)
Definition price_decimals (price : num) : nat :=
  if Qle_bool 1000 price then 2 else if Qle_bool 1 price then 4 else 6.

Definition stat_decimals (price : num) : nat :=
  if Qle_bool 100 price then 2
  else if Qle_bool 1 price then 4
  else if Qle_bool (1 # 100) price then 5
  else 6.

(** A number used as a condition: [undefined], [null] and zero are
    false. *)
Definition truthy (x : option num) : bool :=
  match x with
  | Some q => negb (Qeq_bool q 0)
  | None => false
  end.

(** The value of the "Mid Price" and "Spread" cards:
    [x ? `$${formatStatPrice(x)}` : '-']. *)
Definition stat_value (x : option num) : option string :=
  match x with
  | Some q => if truthy x then String "$" <$> formatStatPrice q else Some "-"
  | None => Some "-"
  end.

(** The value of the "Best Bid" and "Best Ask" cards:
    [side[0] ? `$${formatStatPrice(side[0][0])}` : '-']. *)
Definition best_value (side : list (num * num)) : option string :=
  match side with
  | (p, _) :: _ => String "$" <$> formatStatPrice p
  | [] => Some "-"
  end.

(** *** The depth bars *)

(** [Math.max] of two numbers. *)
Definition math_max (a b : num) : num := if Qle_bool a b then b else a.

(** [Math.max(...bids.map(b => b[1]), ...asks.map(a => a[1]), 1)]. *)
Definition maxQty (bids asks : list (num * num)) : num :=
  foldr math_max 1%Q ((snd <$> bids) ++ (snd <$> asks)).

(** [pct] in [OrderRow]. *)
Definition pct (qty maxQty : num) : num := ((qty / maxQty) * 100)%Q.

(** A row of the book: the price, the quantity with four decimals, the
    width of the bar in per cent. *)
Record Row := {
  row_price : option string;
  row_qty : option string;
  row_pct : num
}.

Definition OrderRow (price qty maxQty : num) : Row :=
  {| row_price := String "$" <$> formatPrice price;
     row_qty := toFixed 4 qty;
     row_pct := pct qty maxQty |}.

(** The rows of one side, [side.map(([price, qty]) => <OrderRow .../>)]. *)
Definition rows (side : list (num * num)) (maxQty : num) : list Row :=
  (fun '(price, qty) => OrderRow price qty maxQty) <$> side.

End Display.

(** ** A scripted engine

    A small engine with the interface of [WasmOrderbook], to run the
    components on concrete inputs.  It understands a handful of payloads by
    name and keeps the two sides of the book. *)

Module Demo.

Record Book := {
  d_bids : list Level;
  d_asks : list Level;
  d_freed : bool
}.

Definition lv (p q : num) : Level := {| price := p; qty := q |}.

Definition empty_book : Book :=
  {| d_bids := []; d_asks := []; d_freed := false |}.

Definition snapshot_bids : list Level :=
  [lv 100%Q 2%Q; lv (199 # 2)%Q 1%Q].
Definition snapshot_asks : list Level :=
  [lv (201 # 2)%Q (3 # 2)%Q; lv 101%Q 3%Q].

Definition best (side : list Level) : option num :=
  Some (default 0%Q (price <$> head side)).

Definition d_spread (b : Book) : option num :=
  match head (d_bids b), head (d_asks b) with
  | Some x, Some y => Some (price y - price x)%Q
  | _, _ => None
  end.

Definition d_mid (b : Book) : option num :=
  match head (d_bids b), head (d_asks b) with
  | Some x, Some y => Some ((price x + price y) / 2)%Q
  | _, _ => None
  end.

(** What a payload does to the book, and the kind of message it is. *)
Definition interpret (b : Book) (m : Msg) : Completion (Book * string) :=
  if d_freed b then Throws (ThrownError "null pointer passed to rust")
  else if bool_decide (m = "snapshot") then
    Returns ({| d_bids := snapshot_bids; d_asks := snapshot_asks;
                d_freed := false |}, "snapshot")
  else if bool_decide (m = "bids-gone") then
    Returns ({| d_bids := []; d_asks := d_asks b; d_freed := false |},
             "update")
  else if bool_decide (m = "ask-improves") then
    Returns ({| d_bids := d_bids b; d_asks := lv (1003 # 10)%Q 1%Q :: d_asks b;
                d_freed := false |}, "update")
  else if bool_decide (m = "corrupt") then
    Throws (ThrownError "Checksum mismatch: expected 1, got 2")
  else if bool_decide (m = "subscribed") then
    Returns (b, "status")
  else Throws (ThrownError "Invalid JSON").

Definition result_of (b : Book) (kind : string) (n : Z) : BookResult :=
  {| msg_type := kind;
     r_bids := take (Z.to_nat n) (d_bids b);
     r_asks := take (Z.to_nat n) (d_asks b);
     r_spread := d_spread b;
     r_mid_price := d_mid b |}.

#[global] Instance demo_engine : WasmOrderbook Book := {|
  with_depth _ _ := empty_book;
  set_precision b _ _ := b;
  apply_and_get b m n :=
    match interpret b m with
    | Returns (b', kind) => (b', Returns (Some (result_of b' kind n)))
    | Throws e => (b, Throws e)
    end;
  free b :=
    if d_freed b then (b, Throws (ThrownError "null pointer passed to rust"))
    else ({| d_bids := d_bids b; d_asks := d_asks b; d_freed := true |},
          Returns ());
  new_book _ := empty_book;
  apply_message b m :=
    match interpret b m with
    | Returns (b', kind) => (b', Returns kind)
    | Throws e => (b, Throws e)
    end;
  get_best_bid b := best (d_bids b);
  get_best_ask b := best (d_asks b);
  get_mid_price b := d_mid b;
  get_spread b := d_spread b;
  get_top_bids b n := take (Z.to_nat n) (d_bids b);
  get_top_asks b n := take (Z.to_nat n) (d_asks b)
|}.

(** A session of the multi-symbol application that is up: the engine is
    there, the socket is open. *)
Definition live : Queued.World Book :=
  Queued.run [Queued.InitResolved; Queued.WsOpen 0%nat] Queued.initial.

(** The same component with payloads waiting and no engine call in
    flight. *)
(** The same session once a snapshot is on screen. *)
Definition showing : Queued.World Book :=
  Queued.run [Queued.WsMessage 0%nat "snapshot"] live.

(** The component after it has been unmounted: the handle is released
    and still in [bookRef]. *)
Definition gone : Queued.World Book := Queued.run [Queued.Unmount] live.

(** The single-symbol application, connected, after a snapshot. *)
Definition basic_up : Basic.World Book := Basic.connect Basic.initial.

Definition basic_showing : Basic.World Book :=
  Basic.ws_onmessage "snapshot" basic_up.

Definition waiting (q : list Msg) : Queued.World Book :=
  Queued.set_messageQueueRef q live.


End Demo.

(** ** Properties of the multi-symbol application *)

Ltac cells :=
  unfold Queued.book, Queued.queue, Queued.processing, Queued.log in *.

Section QueuedFacts.

Import Queued.

Context {E : Type} `{WasmOrderbook E}.

Implicit Types (w : World E) (m : Msg) (sid : nat).

(** *** The processor, case by case *)

Lemma processNextMessage_busy w :
  processing w = true -> processNextMessage w = (w, Returns ()).
Proof. intros Hb. unfold processNextMessage. by rewrite Hb. Qed.

Lemma processNextMessage_empty w :
  queue w = [] -> processNextMessage w = (w, Returns ()).
Proof.
  intros Hq. unfold processNextMessage. rewrite Hq. by destruct (processing w).
Qed.

Lemma processNextMessage_no_book w :
  book w = None -> processNextMessage w = (w, Returns ()).
Proof.
  intros Hb. unfold processNextMessage. rewrite Hb.
  destruct (processing w); [done|]. by destruct (queue w).
Qed.

(** With a message waiting, an engine and nothing in flight, the head of
    the queue goes to the engine, whatever the engine answers. *)
Lemma processNextMessage_head w msg rest b :
  processing w = false -> queue w = msg :: rest -> book w = Some b ->
  exists w' c, processNextMessage w = (w', c) /\
    queue w' = rest /\ processing w' = false /\
    log w' = log w ++ [EvApply (hid b) msg 10] /\
    book w' = Some {| hid := hid b;
                      eng := fst (apply_and_get (eng b) msg 10) |} /\
    timers (host w') = (if bool_decide (rest = []) then timers (host w)
                        else S (timers (host w))) /\
    same_session w w'.
Proof.
  intros Hp Hq Hb. unfold processNextMessage. rewrite Hp, Hq, Hb.
  unfold try_finally, try_catch, apply_and_publish, finish, on_sdk_error,
    same_session.
  cells. simpl. rewrite Hb.
  destruct (apply_and_get (eng b) msg 10) as [e' out] eqn:Ha. simpl.
  destruct out as [[r|]|e];
    [destruct (recognised r)| |
     destruct e as [| |message]; [| |destruct (_ && _)]];
    simpl; case_bool_decide; simpl; eexists _, _;
    (split; [reflexivity|]); simpl; done.
Qed.

(** The three outcomes of the engine call. *)
Lemma processNextMessage_recognised w msg rest b e' r :
  processing w = false -> queue w = msg :: rest -> book w = Some b ->
  apply_and_get (eng b) msg 10 = (e', Returns (Some r)) ->
  recognised r = true ->
  let w' := fst (processNextMessage w) in
  snd (processNextMessage w) = Returns () /\
  shows r w' /\ checksumValid (st w') = true /\
  updateCount (st w') = js_succ (updateCount (st w)).
Proof.
  intros Hp Hq Hb Ha Hr. unfold processNextMessage. rewrite Hp, Hq, Hb.
  unfold try_finally, try_catch, apply_and_publish, finish, shows.
  cells. simpl. rewrite Hb, Ha, Hr. simpl.
  by case_bool_decide.
Qed.

Lemma includes_Checksum_nonempty message :
  includes "Checksum" message = true -> message <> "".
Proof. by intros Hi ->. Qed.

Lemma processNextMessage_checksum w msg rest b e' message :
  processing w = false -> queue w = msg :: rest -> book w = Some b ->
  apply_and_get (eng b) msg 10 = (e', Throws (ThrownError message)) ->
  includes "Checksum" message = true ->
  let w' := fst (processNextMessage w) in
  snd (processNextMessage w) = Returns () /\
  checksumValid (st w') = false /\ same_book w w'.
Proof.
  intros Hp Hq Hb Ha Hi. unfold processNextMessage. rewrite Hp, Hq, Hb.
  unfold try_finally, try_catch, apply_and_publish, finish, on_sdk_error,
    same_book.
  cells. simpl. rewrite Hb, Ha. simpl. rewrite Hi.
  rewrite bool_decide_true by by apply includes_Checksum_nonempty.
  simpl. by case_bool_decide.
Qed.

(** *** The log and the overflow policy *)

Lemma applied_app l1 l2 : applied (l1 ++ l2) = applied l1 ++ applied l2.
Proof. apply omap_app. Qed.

Lemma dropped_app l1 l2 : dropped (l1 ++ l2) = dropped l1 ++ dropped l2.
Proof. apply omap_app. Qed.

Lemma departed_app l1 l2 : departed (l1 ++ l2) = departed l1 ++ departed l2.
Proof. apply omap_app. Qed.

Lemma enqueued_app o1 o2 : enqueued (o1 ++ o2) = enqueued o1 ++ enqueued o2.
Proof. apply omap_app. Qed.

Lemma departed_discards (l : list Msg) : departed (EvDiscard <$> l) = l.
Proof. induction l as [|x l IH]; [done|]. simpl. f_equal. apply IH. Qed.

Lemma dropped_discards (l : list Msg) : dropped (EvDiscard <$> l) = l.
Proof. induction l as [|x l IH]; [done|]. simpl. f_equal. apply IH. Qed.

Lemma applied_discards (l : list Msg) : applied (EvDiscard <$> l) = [].
Proof. induction l as [|x l IH]; [done|]. by simpl. Qed.

Lemma overflow_split (q : list Msg) : discarded q ++ overflow q = q.
Proof.
  unfold discarded, overflow, slice_last.
  case_bool_decide; [apply take_drop|done].
Qed.



Lemma discarded_fits (q : list Msg) :
  (length q <= 100)%nat -> discarded q = [].
Proof.
  intros Hq. unfold discarded. case_bool_decide; [lia|done].
Qed.

Lemma emit_all_eq w (es : list Event) :
  emit_all es w =
  {| st := st w; refs := refs w;
     host := {| sessions := sessions (host w);
                cleanupOf := cleanupOf (host w);
                timers := timers (host w);
                nextHandle := nextHandle (host w);
                alive := alive (host w);
                trace := trace (host w) ++ es |} |}.
Proof.
  revert w. induction es as [|e es IH]; intros w.
  - destruct w as [s r [? ? ? ? ? ?]]. simpl. by rewrite app_nil_r.
  - unfold emit_all in *. simpl. rewrite IH. simpl. by rewrite <- app_assoc.
Qed.

Lemma same_session_refl w : same_session w w.
Proof. unfold same_session. done. Qed.

Lemma same_session_trans w1 w2 w3 :
  same_session w1 w2 -> same_session w2 w3 -> same_session w1 w3.
Proof.
  unfold same_session. intros (?&?&?&?&?&?&?&?&?&?) (?&?&?&?&?&?&?&?&?&?).
  repeat split; congruence.
Qed.

Lemma queueMessage_pushed m w :
  queueMessage m w = processNextMessage (pushed m w).
Proof. done. Qed.

Lemma pushed_cells m w :
  queue (pushed m w) = overflow (queue w ++ [m]) /\
  log (pushed m w) = log w ++ (EvDiscard <$> discarded (queue w ++ [m])) /\
  processing (pushed m w) = processing w /\
  book (pushed m w) = book w /\
  st (pushed m w) = st w /\
  timers (host (pushed m w)) = timers (host w) /\
  same_session w (pushed m w).
Proof.
  unfold pushed, same_session. rewrite emit_all_eq. cells. simpl. done.
Qed.

Lemma same_session_book w w' :
  same_session w w' -> is_Some (book w) -> is_Some (book w').
Proof.
  intros (_&_&_&_&_&_&Hh&_) [b Hb]. rewrite Hb in Hh.
  destruct (book w'); [eauto|done].
Qed.

(** *** One operation of a session *)

(** The queue an operation presents to the processor, and what the
    overflow policy dropped on the way. *)
Lemma do_op_step w o :
  processing w = false ->
  let Q := match o with
           | Enqueue m => overflow (queue w ++ [m])
           | Tick => queue w
           end in
  let D := match o with
           | Enqueue m => discarded (queue w ++ [m])
           | Tick => []
           end in
  let w' := do_op o w in
  exists Δ, log w' = log w ++ Δ /\
    Forall (queue_event (hid <$> book w)) Δ /\
    dropped Δ = D /\
    applied Δ = match book w with Some _ => take 1 Q | None => [] end /\
    departed Δ = D ++ applied Δ /\
    queue w' = match book w with Some _ => drop 1 Q | None => Q end /\
    processing w' = false /\
    same_session w w' /\
    (is_Some (book w) -> queue w' <> [] -> (0 < timers (host w'))%nat).
Proof.
  intros Hp Q D w'.
  (* the state the processor starts from *)
  set (w0 := match o with
             | Enqueue m => pushed m w
             | Tick => set_timers (pred (timers (host w))) w
             end).
  assert (Hw' : w' = fst (processNextMessage w0)) by by destruct o.
  assert (H0 : queue w0 = Q /\ log w0 = log w ++ (EvDiscard <$> D) /\
               processing w0 = false /\ book w0 = book w /\
               same_session w w0).
  { destruct o as [m|]; subst w0 Q D.
    - destruct (pushed_cells m w) as (?&?&?&?&?&?&?). simpl.
      split_and!; congruence.
    - cells. simpl. rewrite app_nil_r. split_and!; try done. }
  destruct H0 as (HQ & Hlog & Hp0 & Hb0 & Hss).
  clearbody w0 Q D w'. subst w'.
  destruct (book w) as [b|] eqn:Hb.
  - destruct Q as [|x rest].
    + rewrite (processNextMessage_empty w0 HQ). simpl.
      exists (EvDiscard <$> D). rewrite dropped_discards, applied_discards,
        departed_discards, app_nil_r.
      split_and!; try done.
      apply Forall_fmap, Forall_true. done.
    + destruct (processNextMessage_head w0 x rest b Hp0 HQ Hb0)
        as (w1 & c & -> & Hq1 & Hp1 & Hl1 & Hb1 & Ht1 & Hss1).
      simpl. exists ((EvDiscard <$> D) ++ [EvApply (hid b) x 10]).
      rewrite dropped_app, applied_app, departed_app, dropped_discards,
        applied_discards, departed_discards. simpl.
      rewrite Hl1, Hlog, <- app_assoc, app_nil_r.
      split_and!; try done.
      * apply Forall_app. split; [by apply Forall_fmap, Forall_true|].
        by apply Forall_singleton.
      * by eapply same_session_trans.
      * intros _ Hne. rewrite Ht1. case_bool_decide; [congruence|lia].
  - rewrite (processNextMessage_no_book w0 Hb0). simpl.
    exists (EvDiscard <$> D). rewrite dropped_discards, applied_discards,
      departed_discards, app_nil_r.
    split_and!; try done.
    apply Forall_fmap, Forall_true. done.
Qed.

Lemma do_op_conserves w o :
  processing w = false ->
  exists Δ, log (do_op o w) = log w ++ Δ /\
    departed Δ ++ queue (do_op o w) = queue w ++ enqueued [o].
Proof.
  intros Hp. destruct (do_op_step w o Hp) as (Δ & Hl & _ & _ & Ha & Hd & Hq & _).
  exists Δ. split; [done|]. rewrite Hd, Hq, Ha, <- app_assoc.
  assert (HDQ : match o with
                | Enqueue m => discarded (queue w ++ [m])
                | Tick => []
                end ++
                match o with
                | Enqueue m => overflow (queue w ++ [m])
                | Tick => queue w
                end = queue w ++ enqueued [o]).
  { destruct o as [m|]; simpl; [apply overflow_split|by rewrite app_nil_r]. }
  rewrite <- HDQ. f_equal.
  destruct (book w); [apply take_drop|done].
Qed.

Lemma overflow_single m : overflow [m] = [m] /\ discarded [m] = [].
Proof.
  unfold overflow, discarded. case_bool_decide; [simpl in *; lia|done].
Qed.

Lemma applied_sublist_departed l : sublist (applied l) (departed l).
Proof.
  induction l as [|e l IH]; [constructor|].
  destruct e; simpl; try done; by constructor.
Qed.

Lemma departed_no_drop h l :
  Forall (queue_event h) l -> dropped l = [] -> departed l = applied l.
Proof.
  induction 1 as [|e l He Hl IH]; [done|].
  destruct e; simpl in *; try done. intros Hd. f_equal. by apply IH.
Qed.

(** *** A whole session *)

Lemma enqueued_cons o ops : enqueued (o :: ops) = enqueued [o] ++ enqueued ops.
Proof. by destruct o. Qed.

Lemma session_run_app ops1 ops2 w :
  session_run (ops1 ++ ops2) w = session_run ops2 (session_run ops1 w).
Proof. apply foldl_app. Qed.

Lemma session_run_spec ops : forall w,
  processing w = false ->
  let w' := session_run ops w in
  exists Δ, log w' = log w ++ Δ /\
    Forall (queue_event (hid <$> book w)) Δ /\
    departed Δ ++ queue w' = queue w ++ enqueued ops /\
    processing w' = false /\
    same_session w w' /\
    ((length (queue w) + length (enqueued ops) <= 100)%nat ->
       dropped Δ = []) /\
    (is_Some (book w) -> queue w = [] ->
       applied Δ = enqueued ops /\ queue w' = [] /\ dropped Δ = []).
Proof.
  induction ops as [|o ops IH]; intros w Hp.
  { exists []. simpl. rewrite !app_nil_r. split_and!; done. }
  change (session_run (o :: ops) w) with (session_run ops (do_op o w)).
  cbv zeta.
  destruct (do_op_step w o Hp)
    as (Δ1 & Hl1 & Hf1 & Hd1 & Ha1 & Hdep1 & Hq1 & Hp1 & Hss1 & _).
  destruct (do_op_conserves w o Hp) as (Δ1' & Hl1' & Hc1).
  assert (Δ1' = Δ1) as -> by (rewrite Hl1 in Hl1'; by simplify_list_eq).
  destruct (IH (do_op o w) Hp1) as (Δ2 & Hl2 & Hf2 & Hc2 & Hp2 & Hss2 & Hb2 & Hi2).
  assert (Hhid : hid <$> book (do_op o w) = hid <$> book w)
    by by destruct Hss1 as (?&?&?&?&?&?&?&?).
  exists (Δ1 ++ Δ2). split_and!.
  - by rewrite Hl2, Hl1, app_assoc.
  - apply Forall_app. split; [done|]. by rewrite <- Hhid.
  - rewrite departed_app, <- app_assoc, Hc2, app_assoc, Hc1, <- app_assoc.
    by rewrite (enqueued_cons o ops).
  - done.
  - by eapply same_session_trans.
  - intros Hlen. rewrite dropped_app.
    rewrite enqueued_cons, length_app in Hlen.
    assert (Hd1' : dropped Δ1 = []).
    { rewrite Hd1. destruct o as [m|]; [|done].
      apply discarded_fits. rewrite length_app.
      change (enqueued [Enqueue m]) with [m] in Hlen. lia. }
    rewrite Hd1', Hb2; [done|].
    apply (f_equal length) in Hc1. rewrite !length_app in Hc1. lia.
  - intros Hb Hq. rewrite Hq in *.
    assert (Hb' : is_Some (book (do_op o w)))
      by by eapply same_session_book.
    destruct Hb as [b Hb]. rewrite Hb in *.
    assert (Hstep : applied Δ1 = enqueued [o] /\ queue (do_op o w) = [] /\
                    dropped Δ1 = []).
    { rewrite Ha1, Hq1, Hd1. destruct o as [m|]; [|done].
      change ([] ++ [m]) with [m].
      by destruct (overflow_single m) as [-> ->]. }
    destruct Hstep as (Ha & Hq' & Hd).
    destruct (Hi2 Hb' Hq') as (Ha2 & Hq2 & Hd2).
    rewrite applied_app, dropped_app, Ha, Ha2, Hd, Hd2.
    split_and!; try done. by rewrite (enqueued_cons o ops).
Qed.

(** Once the engine is there, the timers set by the processor empty the
    queue, one payload a turn. *)
Lemma ticks_drain n : forall w,
  processing w = false -> is_Some (book w) -> length (queue w) = n ->
  let w' := session_run (replicate n Tick) w in
  queue w' = [] /\
  applied (log w') = applied (log w) ++ queue w /\
  dropped (log w') = dropped (log w).
Proof.
  induction n as [|n IH]; intros w Hp Hb Hn.
  { apply nil_length_inv in Hn. simpl. rewrite Hn, app_nil_r. done. }
  change (session_run (replicate (S n) Tick) w)
    with (session_run (replicate n Tick) (do_op Tick w)).
  destruct (do_op_step w Tick Hp)
    as (Δ & Hl & _ & Hd & Ha & _ & Hq & Hp1 & Hss & _).
  assert (Hb' : is_Some (book (do_op Tick w)))
    by by eapply same_session_book.
  destruct Hb as [b Hb]. rewrite Hb in *.
  destruct (queue w) as [|x rest] eqn:Hqw; [done|].
  change (drop 1 (x :: rest)) with rest in Hq.
  change (take 1 (x :: rest)) with [x] in Ha.
  destruct (IH (do_op Tick w) Hp1 Hb') as (Hq2 & Ha2 & Hd2).
  { rewrite Hq. simpl in Hn. lia. }
  cbv zeta. split_and!.
  - done.
  - rewrite Ha2, Hl, applied_app, Ha, Hq, <- app_assoc. done.
  - rewrite Hd2, Hl, dropped_app, Hd, app_nil_r. done.
Qed.

(** *** Sessions across a step *)

Lemma keeps_refl l : keeps l l.
Proof. intros sid s Hs. by exists s. Qed.

Lemma keeps_trans l1 l2 l3 : keeps l1 l2 -> keeps l2 l3 -> keeps l1 l3.
Proof.
  intros H12 H23 sid s Hs.
  destruct (H12 sid s Hs) as (s2 & Hs2 & Ho2 & Hy2 & Hm2).
  destruct (H23 sid s2 Hs2) as (s3 & Hs3 & Ho3 & Hy3 & Hm3).
  exists s3. split_and!; [done|congruence..|auto].
Qed.

Lemma keeps_alter (f : Session -> Session) i l :
  (forall s, opened (f s) = opened s /\ s_symbol (f s) = s_symbol s /\
             (mounted (f s) = true -> mounted s = true)) ->
  keeps l (alter f i l).
Proof.
  intros Hf sid s Hs. destruct (decide (i = sid)) as [->|Hne].
  - exists (f s). rewrite list_lookup_alter_eq, Hs. split; [done|]. apply Hf.
  - exists s. by rewrite list_lookup_alter_ne.
Qed.

Lemma keeps_app l k : keeps l (l ++ k).
Proof.
  intros sid s Hs. exists s. split; [|done].
  rewrite lookup_app_l; [done|]. by eapply lookup_lt_Some.
Qed.

Lemma keeps_closing i l : keeps l (alter closing i l).
Proof. apply keeps_alter. by intros []. Qed.

Lemma keeps_unmounting i l : keeps l (alter unmounting i l).
Proof. apply keeps_alter. by intros []. Qed.

Lemma keeps_closed i l : keeps l (alter closed i l).
Proof. apply keeps_alter. by intros []. Qed.

Lemma sends_of_app sid l1 l2 :
  sends_of sid (l1 ++ l2) = sends_of sid l1 ++ sends_of sid l2.
Proof. apply omap_app. Qed.

Lemma sends_of_queue_events sid h l :
  Forall (queue_event h) l -> sends_of sid l = [].
Proof.
  induction 1 as [|e l He Hl IH]; [done|]. by destruct e.
Qed.

Lemma sends_ok_frame w w' :
  sends_ok w ->
  (forall sid, sends_of sid (log w') = sends_of sid (log w)) ->
  keeps (sessions (host w)) (sessions (host w')) ->
  sends_ok w'.
Proof.
  intros Hok Hl Hk sid. rewrite Hl.
  destruct (Hok sid) as [?|(s & Hs & Ho & Hsent)]; [by left|right].
  destruct (Hk sid s Hs) as (s' & Hs' & Ho' & Hy' & _).
  exists s'. split_and!; congruence.
Qed.

(** *** The connect effect *)

Lemma connect_cleanup_cells sid w :
  let w' := fst (connect_cleanup sid w) in
  snd (connect_cleanup sid w) = Returns () /\
  st w' = st w /\ refs w' = refs w /\
  sessions (host w') = alter closing sid (alter unmounting sid (sessions (host w))) /\
  log w' = log w ++ [EvClose sid] /\
  cleanupOf (host w') = cleanupOf (host w) /\
  timers (host w') = timers (host w) /\
  nextHandle (host w') = nextHandle (host w) /\
  alive (host w') = alive (host w).
Proof. done. Qed.


Lemma connect_effect_cells w :
  sdkReady (st w) = true ->
  let w' := fst (connect_effect w) in
  let sym := symbol (st w) in
  let h := nextHandle (host w) in
  let sid := length (sessions (host w)) in
  snd (connect_effect w) = Returns () /\
  st w' = {| symbol := sym; connected := connected (st w); bids := [];
             asks := []; spread := None; midPrice := None;
             updateCount := 0; checksumValid := true; sdkReady := true |} /\
  queue w' = [] /\ processing w' = false /\
  book w' = Some {| hid := h;
                    eng := set_precision (with_depth sym 25)
                             (precision_of sym).1 (precision_of sym).2 |} /\
  wsRef (refs w') = Some sid /\
  currentSymbolRef (refs w') = currentSymbolRef (refs w) /\
  cleanupOf (host w') = Some sid /\
  sessions (host w') =
    match wsRef (refs w) with
    | Some old => alter closing old (sessions (host w))
    | None => sessions (host w)
    end ++ [new_session sym] /\
  log w' = log w ++ match book w with
                    | Some b => [EvFree (hid b)]
                    | None => []
                    end
                 ++ match wsRef (refs w) with
                    | Some old => [EvClose old]
                    | None => []
                    end
                 ++ [EvCreate h sym 25;
                     EvSetPrecision h (precision_of sym).1 (precision_of sym).2;
                     EvNewSocket sid WS_URL] /\
  timers (host w') = timers (host w) /\
  nextHandle (host w') = S h /\
  alive (host w') = alive (host w).
Proof.
  intros Hs. unfold connect_effect. rewrite Hs.
  destruct w as [s [ws bk q pr cs] [ss cl tm nh al tr]].
  unfold seq, clear_previous_state, cleanup_previous_orderbook,
    close_previous_websocket, create_orderbook, connect_websocket, try_free,
    try_catch, call_free, ws_close, lift, ret, seq.
  cells. cbn in *.
  destruct bk as [b|]; cbn.
  - destruct (free (eng b)) as [e' [[]|err]]; cbn;
      destruct ws as [old|]; cbn;
      destruct (precision_of (symbol s)) as [p q']; cbn;
      rewrite ?length_alter, <- ?app_assoc, Hs; split_and!; done.
  - destruct ws as [old|]; cbn;
      destruct (precision_of (symbol s)) as [p q']; cbn;
      rewrite ?length_alter, <- ?app_assoc, Hs; split_and!; done.
Qed.

Lemma rerun_connect_eq w :
  rerun_connect w = connect_effect (after_cleanup w).
Proof.
  unfold rerun_connect, after_cleanup. by destruct (cleanupOf (host w)).
Qed.

Lemma after_cleanup_cells w :
  let w' := after_cleanup w in
  st w' = st w /\ refs w' = refs w /\
  sessions (host w') = retired w /\
  log w' = log w ++ match cleanupOf (host w) with
                    | Some sid => [EvClose sid]
                    | None => []
                    end /\
  cleanupOf (host w') = cleanupOf (host w) /\
  timers (host w') = timers (host w) /\
  nextHandle (host w') = nextHandle (host w) /\
  alive (host w') = alive (host w).
Proof.
  unfold after_cleanup, retired. destruct (cleanupOf (host w)) eqn:Hc.
  - simpl. cells. simpl. by rewrite Hc.
  - cells. by rewrite app_nil_r, Hc.
Qed.

Lemma retired_keeps w : keeps (sessions (host w)) (retired w).
Proof.
  unfold retired. destruct (cleanupOf (host w)); [|apply keeps_refl].
  eapply keeps_trans; [apply keeps_unmounting|apply keeps_closing].
Qed.

Lemma retired_unmounted w i s :
  one_active w -> retired w !! i = Some s -> mounted s = false.
Proof.
  intros Hone. unfold retired.
  destruct (cleanupOf (host w)) as [sid|] eqn:Hc.
  - destruct (decide (sid = i)) as [->|Hne].
    + rewrite !list_lookup_alter_eq.
      destruct (sessions (host w) !! i); [|done]. by intros [= <-].
    + rewrite !list_lookup_alter_ne by done. intros Hs.
      destruct (mounted s) eqn:Hm; [|done].
      specialize (Hone i s Hs Hm). congruence.
  - intros Hs. destruct (mounted s) eqn:Hm; [|done].
    specialize (Hone i s Hs Hm). congruence.
Qed.

Lemma retired_length w : length (retired w) = length (sessions (host w)).
Proof.
  unfold retired. destruct (cleanupOf (host w)); [|done].
  by rewrite !length_alter.
Qed.

Lemma torn_down_keeps w : keeps (sessions (host w)) (torn_down w).
Proof.
  unfold torn_down. destruct (wsRef (refs w));
    [eapply keeps_trans; [apply retired_keeps|apply keeps_closing]
    |apply retired_keeps].
Qed.

Lemma torn_down_length w :
  length (torn_down w) = length (sessions (host w)).
Proof.
  unfold torn_down.
  destruct (wsRef (refs w)); by rewrite ?length_alter, retired_length.
Qed.

Lemma torn_down_unmounted w :
  one_active w -> forall i s, torn_down w !! i = Some s -> mounted s = false.
Proof.
  intros Hone i s. unfold torn_down.
  destruct (wsRef (refs w)) as [old|]; [|by apply retired_unmounted].
  destruct (decide (old = i)) as [->|Hne].
  - rewrite list_lookup_alter_eq.
    destruct (retired w !! i) as [s0|] eqn:Hs0; [|done].
    intros [= <-]. apply (retired_unmounted w i s0 Hone) in Hs0.
    by destruct s0.
  - rewrite list_lookup_alter_ne by done. by apply retired_unmounted.
Qed.

(** A switch, from the cleanup of the old run to the socket of the new
    one. *)
Lemma rerun_connect_cells w :
  sdkReady (st w) = true ->
  let w' := fst (rerun_connect w) in
  let sym := symbol (st w) in
  let h := nextHandle (host w) in
  let sid := length (sessions (host w)) in
  snd (rerun_connect w) = Returns () /\
  st w' = {| symbol := sym; connected := connected (st w); bids := [];
             asks := []; spread := None; midPrice := None;
             updateCount := 0; checksumValid := true; sdkReady := true |} /\
  queue w' = [] /\ processing w' = false /\
  book w' = Some {| hid := h;
                    eng := set_precision (with_depth sym 25)
                             (precision_of sym).1 (precision_of sym).2 |} /\
  wsRef (refs w') = Some sid /\
  cleanupOf (host w') = Some sid /\
  sessions (host w') =
    torn_down w ++ [new_session sym] /\
  log w' = log w ++ match cleanupOf (host w) with
                    | Some old => [EvClose old]
                    | None => []
                    end
                 ++ match book w with
                    | Some b => [EvFree (hid b)]
                    | None => []
                    end
                 ++ match wsRef (refs w) with
                    | Some old => [EvClose old]
                    | None => []
                    end
                 ++ [EvCreate h sym 25;
                     EvSetPrecision h (precision_of sym).1 (precision_of sym).2;
                     EvNewSocket sid WS_URL] /\
  timers (host w') = timers (host w) /\
  nextHandle (host w') = S h /\
  alive (host w') = alive (host w).
Proof.
  intros Hs. rewrite rerun_connect_eq.
  destruct (after_cleanup_cells w) as (Hst & Hrefs & Hss & Hl & Hc & Ht & Hn & Ha).
  destruct (connect_effect_cells (after_cleanup w)) as
    (? & ? & ? & ? & ? & ? & ? & ? & ? & ? & ? & ? & ?); [congruence|].
  cells. rewrite Hst, Hrefs, Hss, Hl, Hn, Ha, Ht, retired_length, <- ?app_assoc in *.
  split_and!; done.
Qed.

Lemma sends_of_none sid l :
  Forall (fun e => match e with EvSend _ _ => False | _ => True end) l ->
  sends_of sid l = [].
Proof. induction 1 as [|e l He Hl IH]; [done|]. by destruct e. Qed.

Lemma rerun_connect_inv w :
  quiet w -> one_active w -> sends_ok w -> alive (host w) = true ->
  (sdkReady (st w) = false -> cleanupOf (host w) = None) ->
  Inv (fst (rerun_connect w)).
Proof.
  intros Hq Hone Hsend Halive Hnotready.
  destruct (sdkReady (st w)) eqn:Hs.
  - destruct (rerun_connect_cells w Hs)
      as (_ & Hst & Hq' & Hp' & Hb' & Hws' & Hc' & Hss' & Hl' & _ & _ & Ha').
    pose proof (torn_down_keeps w) as Hk.
    pose proof (torn_down_length w) as Hlen.
    pose proof (torn_down_unmounted w Hone) as Hun.
    split_and!.
    + done.
    + intros i s. rewrite Hss', Hc'. intros Hi Hm.
      apply lookup_app_Some in Hi as [Hi|[Hge Hi]].
      * apply Hun in Hi. congruence.
      * rewrite Hlen in Hge, Hi.
        apply lookup_lt_Some in Hi as Hlt. simpl in Hlt.
        f_equal. lia.
    + intros i. rewrite Hc'. intros [= <-].
      exists (new_session (symbol (st w))). rewrite Hss', Hst, Hb', Hws', Ha'.
      split_and!; try done.
      rewrite lookup_app_r by lia. by rewrite Hlen, Nat.sub_diag.
    + eapply sends_ok_frame; [done| |].
      * intros i. rewrite Hl', sends_of_app.
        rewrite (sends_of_none i (_ ++ _)); [by rewrite app_nil_r|].
        destruct (cleanupOf (host w)), (book w), (wsRef (refs w));
          repeat constructor.
      * rewrite Hss'. eapply keeps_trans; [done|apply keeps_app].
  - rewrite rerun_connect_eq. unfold after_cleanup.
    rewrite (Hnotready eq_refl). unfold connect_effect. rewrite Hs. simpl.
    split_and!.
    + done.
    + intros i s Hi Hm. specialize (Hone i s Hi Hm).
      rewrite (Hnotready eq_refl) in Hone. done.
    + by intros i.
    + done.
Qed.

(** *** The other handlers *)

Lemma unmount_cells w :
  let w' := fst (unmount w) in
  snd (unmount w) = Returns () /\
  st w' = st w /\ queue w' = queue w /\ processing w' = processing w /\
  wsRef (refs w') = wsRef (refs w) /\
  book w' = (fun b => {| hid := hid b; eng := fst (free (eng b)) |}) <$> book w /\
  sessions (host w') = torn_down w /\
  log w' = log w ++ match cleanupOf (host w) with
                    | Some old => [EvClose old]
                    | None => []
                    end
                 ++ match book w with
                    | Some b => [EvFree (hid b)]
                    | None => []
                    end
                 ++ match wsRef (refs w) with
                    | Some old => [EvClose old]
                    | None => []
                    end /\
  cleanupOf (host w') = None /\ alive (host w') = false /\
  timers (host w') = timers (host w) /\
  nextHandle (host w') = nextHandle (host w).
Proof.
  unfold unmount, unmount_cleanup, torn_down, retired, seq, connect_cleanup,
    try_free, try_catch, call_free, ws_close, lift, ret, seq.
  destruct w as [s [ws bk q pr cs] [ss cl tm nh al tr]].
  cells. cbn.
  destruct cl as [sid|]; cbn;
    (destruct bk as [b|]; cbn;
      [destruct (free (eng b)) as [e' [[]|err]]; cbn|]);
    destruct ws as [old|]; cbn;
    rewrite <- ?app_assoc, ?app_nil_r; split_and!; done.
Qed.

Lemma ws_onopen_cells sid s w :
  sessions (host w) !! sid = Some s ->
  let w' := ws_onopen sid w in
  refs w' = refs w /\
  sessions (host w') = alter opening sid (sessions (host w)) /\
  cleanupOf (host w') = cleanupOf (host w) /\
  alive (host w') = alive (host w) /\
  timers (host w') = timers (host w) /\
  nextHandle (host w') = nextHandle (host w) /\
  symbol (st w') = symbol (st w) /\
  sdkReady (st w') = sdkReady (st w) /\
  connected (st w') = (if mounted s then true else connected (st w)) /\
  same_book w w' /\ checksumValid (st w') = checksumValid (st w) /\
  log w' = log w ++ (if mounted s
                     then [EvSend sid (subscribe_request (s_symbol s))]
                     else []).
Proof.
  intros Hs. unfold ws_onopen, same_book. rewrite Hs.
  destruct (mounted s); cells; simpl; rewrite ?app_nil_r; done.
Qed.

Lemma ws_onclose_cells sid s w :
  sessions (host w) !! sid = Some s ->
  let w' := ws_onclose sid w in
  refs w' = refs w /\
  sessions (host w') = alter closed sid (sessions (host w)) /\
  cleanupOf (host w') = cleanupOf (host w) /\
  alive (host w') = alive (host w) /\
  timers (host w') = timers (host w) /\
  nextHandle (host w') = nextHandle (host w) /\
  symbol (st w') = symbol (st w) /\
  sdkReady (st w') = sdkReady (st w) /\
  connected (st w') = (if mounted s then false else connected (st w)) /\
  same_book w w' /\ checksumValid (st w') = checksumValid (st w) /\
  log w' = log w.
Proof.
  intros Hs. unfold ws_onclose, same_book. rewrite Hs.
  destruct (mounted s); cells; simpl; done.
Qed.


(** What is true of the session on screen stays true when the sockets
    only change state. *)
Lemma active_ok_frame w w' :
  active_ok w ->
  cleanupOf (host w') = cleanupOf (host w) ->
  (forall sid s, sessions (host w) !! sid = Some s ->
     exists s', sessions (host w') !! sid = Some s' /\
       mounted s' = mounted s /\ s_symbol s' = s_symbol s) ->
  symbol (st w') = symbol (st w) ->
  wsRef (refs w') = wsRef (refs w) ->
  (is_Some (book w) -> is_Some (book w')) ->
  alive (host w') = alive (host w) ->
  sdkReady (st w') = sdkReady (st w) ->
  active_ok w'.
Proof.
  intros Hok Hc Hss Hsym Hws Hb Ha Hr sid. rewrite Hc. intros Hsid.
  destruct (Hok sid Hsid) as (s & Hs & Hm & Hy & Hw & Hbk & Hal & Hrd).
  destruct (Hss sid s Hs) as (s' & Hs' & Hm' & Hy').
  exists s'. split_and!; try congruence. by apply Hb.
Qed.

Lemma one_active_frame w w' :
  one_active w ->
  cleanupOf (host w') = cleanupOf (host w) ->
  (forall sid s', sessions (host w') !! sid = Some s' -> mounted s' = true ->
     exists s, sessions (host w) !! sid = Some s /\ mounted s = true) ->
  one_active w'.
Proof.
  intros Hone Hc Hss sid s' Hs' Hm'. rewrite Hc.
  destruct (Hss sid s' Hs' Hm') as (s & Hs & Hm). by eapply Hone.
Qed.

Lemma alter_same_mounted (f : Session -> Session) i (l : list Session) :
  (forall s, mounted (f s) = mounted s /\ s_symbol (f s) = s_symbol s) ->
  (forall sid s, l !! sid = Some s ->
     exists s', alter f i l !! sid = Some s' /\
       mounted s' = mounted s /\ s_symbol s' = s_symbol s) /\
  (forall sid s', alter f i l !! sid = Some s' -> mounted s' = true ->
     exists s, l !! sid = Some s /\ mounted s = true).
Proof.
  intros Hf. split.
  - intros sid s Hs. destruct (decide (i = sid)) as [->|Hne].
    + exists (f s). rewrite list_lookup_alter_eq, Hs. split; [done|]. apply Hf.
    + exists s. by rewrite list_lookup_alter_ne.
  - intros sid s'. destruct (decide (i = sid)) as [->|Hne].
    + rewrite list_lookup_alter_eq. destruct (l !! sid) as [s|]; [|done].
      intros [= <-] Hm. exists s. split; [done|].
      destruct (Hf s) as [<- _]. done.
    + rewrite list_lookup_alter_ne by done. eauto.
Qed.


(** *** The invariant *)

Lemma initial_inv : Inv (initial : World E).
Proof.
  split_and!.
  - done.
  - by intros sid s Hs.
  - by intros sid.
  - intros sid. by left.
Qed.

Lemma ws_onopen_inv sid w :
  Inv w -> enabled (WsOpen sid) w -> Inv (ws_onopen sid w).
Proof.
  intros (Hq & Hone & Hact & Hsend) (s & Hs & Ho & _).
  destruct (ws_onopen_cells sid s w Hs)
    as (Hrefs & Hss & Hc & Ha & _ & _ & Hsym & Hrd & _ & _ & _ & Hl).
  destruct (alter_same_mounted opening sid (sessions (host w)))
    as [Hfw Hbw]; [by intros []|].
  rewrite <- Hss in Hfw, Hbw.
  split_and!.
  - unfold quiet. cells. by rewrite Hrefs.
  - by eapply one_active_frame.
  - eapply active_ok_frame; try done; cells; by rewrite Hrefs.
  - intros i. rewrite Hl, sends_of_app, Hss.
    destruct (decide (i = sid)) as [->|Hne].
    + destruct (Hsend sid) as [Hnone|(s0 & Hs0 & Ho0 & _)]; [|congruence].
      rewrite Hnone. destruct (mounted s); simpl.
      * right. exists (opening s).
        rewrite list_lookup_alter_eq, Hs, bool_decide_true by done. done.
      * by left.
    + assert (Hno : sends_of i (if mounted s
                      then [EvSend sid (subscribe_request (s_symbol s))]
                      else []) = []).
      { destruct (mounted s); [|done]. simpl.
        by rewrite bool_decide_false by done. }
      rewrite Hno, app_nil_r.
      destruct (Hsend i) as [?|(s0 & Hs0 & Ho0 & Hsent)]; [by left|right].
      exists s0. by rewrite list_lookup_alter_ne.
Qed.

Lemma ws_onclose_inv sid w :
  Inv w -> enabled (WsClose sid) w -> Inv (ws_onclose sid w).
Proof.
  intros (Hq & Hone & Hact & Hsend) (s & Hs & _).
  destruct (ws_onclose_cells sid s w Hs)
    as (Hrefs & Hss & Hc & Ha & _ & _ & Hsym & Hrd & _ & _ & _ & Hl).
  destruct (alter_same_mounted closed sid (sessions (host w)))
    as [Hfw Hbw]; [by intros []|].
  rewrite <- Hss in Hfw, Hbw.
  split_and!.
  - unfold quiet. cells. by rewrite Hrefs.
  - by eapply one_active_frame.
  - eapply active_ok_frame; try done; cells; by rewrite Hrefs.
  - eapply sends_ok_frame; [done|by intros; cells; rewrite Hl|].
    rewrite Hss. apply keeps_closed.
Qed.

Lemma do_op_Enqueue m w : do_op (Enqueue m) w = fst (queueMessage m w).
Proof. unfold do_op. reflexivity. Qed.

(** A payload that arrives on the socket of the session on screen goes
    to the engine at once. *)
Lemma queueMessage_quiet data w :
  quiet w -> is_Some (book w) ->
  let w' := fst (queueMessage data w) in
  quiet w' /\ same_session w w' /\
  exists Δ, log w' = log w ++ Δ /\ applied Δ = [data] /\
    Forall (queue_event (hid <$> book w)) Δ.
Proof.
  intros [Hp Hq] [b Hb]. cbv zeta.
  rewrite <- do_op_Enqueue.
  destruct (do_op_step w (Enqueue data) Hp)
    as (Δ & Hl & Hf & _ & Ha & _ & Hq' & Hp' & Hss & _).
  rewrite Hq, Hb in Ha, Hq'. change ([] ++ [data]) with [data] in Ha, Hq'.
  destruct (overflow_single data) as [Ho _]. rewrite Ho in Ha, Hq'.
  split; [by split|]. split; [exact Hss|].
  exists Δ. split; [exact Hl|]. split; [exact Ha|exact Hf].
Qed.

Lemma ws_onmessage_inv sid data w :
  Inv w -> Inv (fst (ws_onmessage sid data w)).
Proof.
  intros (Hq & Hone & Hact & Hsend). unfold ws_onmessage.
  destruct (sessions (host w) !! sid) as [s|] eqn:Hs; [|done].
  destruct (mounted s) eqn:Hm; [|done]. simpl.
  destruct (Hact sid (Hone sid s Hs Hm)) as (_ & _ & _ & _ & _ & Hb & _).
  destruct (queueMessage_quiet data w Hq Hb)
    as (Hq' & Hss & Δ & Hl & _ & Hf).
  pose proof Hss as (Hss' & Hc & _ & Ha & Hws & _ & _ & Hsym & Hrd & _).
  split_and!.
  - done.
  - eapply one_active_frame; [done..|]. rewrite Hss'. eauto.
  - eapply active_ok_frame; try done.
    + rewrite Hss'. eauto.
    + by apply same_session_book.
  - eapply sends_ok_frame; [done| |rewrite Hss'; apply keeps_refl].
    intros i. by rewrite Hl, sends_of_app, (sends_of_queue_events i _ Δ Hf),
      app_nil_r.
Qed.

Lemma timer_fires_quiet w :
  quiet w -> fst (timer_fires w) = set_timers (pred (timers (host w))) w.
Proof.
  intros [_ Hq]. unfold timer_fires. by rewrite processNextMessage_empty.
Qed.

Lemma unmount_inv w : Inv w -> Inv (fst (unmount w)).
Proof.
  intros (Hq & Hone & Hact & Hsend).
  destruct (unmount_cells w)
    as (_ & Hst & Hq' & Hp' & _ & _ & Hss & Hl & Hc & _).
  split_and!.
  - unfold quiet in *. by rewrite Hq', Hp'.
  - intros i s. rewrite Hss. intros Hi Hm.
    apply (torn_down_unmounted w Hone) in Hi. congruence.
  - intros i. by rewrite Hc.
  - eapply sends_ok_frame; [done| |rewrite Hss; apply torn_down_keeps].
    intros i. rewrite Hl, sends_of_app.
    rewrite (sends_of_none i (_ ++ _)); [by rewrite app_nil_r|].
    destruct (cleanupOf (host w)), (book w), (wsRef (refs w));
      repeat constructor.
Qed.

Lemma step_inv i w : Inv w -> enabled i w -> Inv (step i w).
Proof.
  intros HI Hen. destruct i as [|s| |sid|sid data|sid|sid|]; simpl.
  - unfold init_resolved.
    destruct (alive (host w)) eqn:Ha; [|done].
    destruct (sdkReady (st w)) eqn:Hr; [done|]. simpl.
    destruct HI as (Hq & Hone & Hact & Hsend).
    by apply rerun_connect_inv.
  - unfold handleSymbolChange. case_bool_decide; [|done].
    destruct HI as (Hq & Hone & Hact & Hsend). destruct Hen as [Ha _].
    apply rerun_connect_inv; try done.
    simpl. intros Hr. destruct (cleanupOf (host w)) as [sid|] eqn:Hc; [|done].
    destruct (Hact sid Hc) as (_ & _ & _ & _ & _ & _ & _ & Hr'). congruence.
  - by apply unmount_inv.
  - by apply ws_onopen_inv.
  - by apply ws_onmessage_inv.
  - by apply ws_onclose_inv.
  - done.
  - rewrite timer_fires_quiet by apply HI. done.
Qed.

Lemma reachable_inv w : reachable w -> Inv w.
Proof.
  induction 1 as [|w i _ IH Hen]; [apply initial_inv|by apply step_inv].
Qed.

(** *** Traffic *)

Lemma run_app ins1 ins2 w : run (ins1 ++ ins2) w = run ins2 (run ins1 w).
Proof. apply foldl_app. Qed.

Lemma valid_app ins1 ins2 w :
  valid (ins1 ++ ins2) w <-> valid ins1 w /\ valid ins2 (run ins1 w).
Proof.
  revert w. induction ins1 as [|i ins1 IH]; intros w; simpl; [tauto|].
  rewrite IH. unfold run. simpl. tauto.
Qed.

Lemma enabledb_sound i w : enabledb i w = true -> enabled i w.
Proof.
  destruct i as [|s| |sid|sid data|sid|sid|]; simpl; try done.
  - intros [Ha Hs]%andb_prop. split; [done|].
    by apply bool_decide_eq_true in Hs.
  - destruct (sessions (host w) !! sid) as [s|]; [|done].
    intros [Ho Hc]%andb_prop. exists s. split_and!; [done| |].
    + by destruct (opened s).
    + by destruct (readyState s).
  - destruct (sessions (host w) !! sid) as [s|]; [|done].
    intros [Ho Hc]%andb_prop. exists s. split_and!; [done..|].
    by destruct (readyState s).
  - destruct (sessions (host w) !! sid) as [s|]; [|done].
    intros Hc. exists s. split; [done|]. by destruct (readyState s).
  - by destruct (sessions (host w) !! sid).
  - intros Ht. by apply bool_decide_eq_true in Ht.
Qed.

Lemma validb_sound ins : forall w, validb ins w = true -> valid ins w.
Proof.
  induction ins as [|i ins IH]; intros w; [done|].
  intros [Hi Hv]%andb_prop. split; [by apply enabledb_sound|by apply IH].
Qed.

Lemma reachable_run ins w : reachable w -> valid ins w -> reachable (run ins w).
Proof.
  revert w. induction ins as [|i ins IH]; intros w Hr Hv; [done|].
  destruct Hv as [Hen Hv]. apply (IH (step i w)); [by constructor|done].
Qed.

Lemma steady_refl w : steady w w.
Proof. unfold steady. done. Qed.

Lemma steady_trans w1 w2 w3 : steady w1 w2 -> steady w2 w3 -> steady w1 w3.
Proof.
  unfold steady. intros (?&?&?&?&?&?&?&?) (?&?&?&?&?&?&?&?).
  split_and!; congruence.
Qed.

Lemma same_session_steady w w' : same_session w w' -> steady w w'.
Proof.
  unfold same_session, steady. intros (?&?&?&?&?&?&?&?&?&?).
  split_and!; congruence.
Qed.

Lemma queue_event_traffic h (a : option nat) l :
  Forall (queue_event h) l -> Forall (traffic_event h a) l.
Proof. intros Hl. eapply Forall_impl; [exact Hl|]. by intros []. Qed.

Lemma delivered_app sid l1 l2 :
  delivered sid (l1 ++ l2) = delivered sid l1 ++ delivered sid l2.
Proof. apply omap_app. Qed.

(** One event of a socket or of a timer: the session controller's cells
    stay, the engine of the session on screen gets the payload if the
    event is a message on its socket, and a message on any other socket
    changes nothing at all. *)
Lemma traffic_step i w :
  Inv w -> traffic i = true -> enabled i w ->
  let w' := step i w in
  steady w w' /\
  (forall sid data, i = WsMessage sid data ->
     cleanupOf (host w) <> Some sid -> w' = w) /\
  exists Δ, log w' = log w ++ Δ /\
    applied Δ = match cleanupOf (host w) with
                | Some a => delivered a [i]
                | None => []
                end /\
    Forall (traffic_event (hid <$> book w) (cleanupOf (host w))) Δ.
Proof.
  intros (Hq & Hone & Hact & Hsend) Ht Hen.
  destruct i as [|s| |sid|sid data|sid|sid|]; try done; simpl.
  - destruct Hen as (s & Hs & _).
    destruct (ws_onopen_cells sid s w Hs)
      as (Hrefs & Hss & Hc & Ha & _ & Hn & Hsym & Hrd & _ & _ & _ & Hl).
    split_and!.
    + unfold steady. cells. rewrite Hrefs, Hss, length_alter. done.
    + done.
    + eexists. split; [exact Hl|]. split.
      * destruct (mounted s), (cleanupOf (host w)); done.
      * destruct (mounted s) eqn:Hm; [|done].
        apply Forall_singleton. simpl. by eapply Hone.
  - destruct Hen as (s & Hs & _). unfold ws_onmessage. rewrite Hs.
    destruct (mounted s) eqn:Hm; simpl.
    + pose proof (Hone sid s Hs Hm) as Hc.
      destruct (Hact sid Hc) as (_ & _ & _ & _ & _ & Hb & _).
      destruct (queueMessage_quiet data w Hq Hb)
        as (_ & Hss & Δ & Hl & Ha & Hf).
      split_and!.
      * by apply same_session_steady.
      * intros ? ? [= <- <-] Hne. done.
      * exists Δ. rewrite Hc. simpl. rewrite bool_decide_true by done.
        split_and!; [done..|]. by apply queue_event_traffic.
    + split_and!; [apply steady_refl|done|].
      exists []. rewrite app_nil_r. split_and!; [done| |done].
      destruct (cleanupOf (host w)) as [a|] eqn:Hc; [|done]. simpl.
      rewrite bool_decide_false; [done|]. intros ->.
      destruct (Hact a Hc) as (s' & Hs' & Hm' & _). congruence.
  - destruct Hen as (s & Hs & _).
    destruct (ws_onclose_cells sid s w Hs)
      as (Hrefs & Hss & Hc & Ha & _ & Hn & Hsym & Hrd & _ & _ & _ & Hl).
    split_and!.
    + unfold steady. cells. rewrite Hrefs, Hss, length_alter. done.
    + done.
    + exists []. rewrite app_nil_r. split_and!; [done| |done].
      by destruct (cleanupOf (host w)).
  - split_and!; [apply steady_refl|done|].
    exists []. rewrite app_nil_r. split_and!; [done| |done].
    by destruct (cleanupOf (host w)).
  - rewrite timer_fires_quiet by done.
    split_and!; [done|done|].
    exists []. cells. simpl. rewrite app_nil_r. split_and!; [done| |done].
    by destruct (cleanupOf (host w)).
Qed.

Lemma traffic_run evs : forall w,
  Inv w -> Forall (fun i => traffic i = true) evs -> valid evs w ->
  let w' := run evs w in
  Inv w' /\ steady w w' /\
  exists Δ, log w' = log w ++ Δ /\
    applied Δ = match cleanupOf (host w) with
                | Some a => delivered a evs
                | None => []
                end /\
    Forall (traffic_event (hid <$> book w) (cleanupOf (host w))) Δ.
Proof.
  induction evs as [|i evs IH]; intros w HI Ht Hv.
  { split_and!; [done|apply steady_refl|].
    exists []. rewrite app_nil_r. split_and!; [done| |done].
    by destruct (cleanupOf (host w)). }
  apply Forall_cons in Ht as [Hti Ht]. destruct Hv as [Hen Hv].
  destruct (traffic_step i w HI Hti Hen) as (Hs1 & _ & Δ1 & Hl1 & Ha1 & Hf1).
  destruct (IH (step i w) (step_inv i w HI Hen) Ht Hv)
    as (HI' & Hs2 & Δ2 & Hl2 & Ha2 & Hf2).
  change (run (i :: evs) w) with (run evs (step i w)). cbv zeta.
  pose proof Hs1 as (Hc & _ & _ & _ & _ & Hh & _).
  rewrite Hc, Hh in *.
  split_and!; [done|by eapply steady_trans|].
  exists (Δ1 ++ Δ2). split_and!.
  - by rewrite Hl2, Hl1, app_assoc.
  - rewrite applied_app, Ha1, Ha2.
    destruct (cleanupOf (host w)); [|done].
    by rewrite <- delivered_app.
  - by apply Forall_app.
Qed.

(** A payload that arrives on a socket other than the one of the session
    on screen leaves the component as it is. *)
Lemma superseded_message_ignored evs w k sid data :
  Inv w -> Forall (fun i => traffic i = true) evs -> valid evs w ->
  evs !! k = Some (WsMessage sid data) ->
  cleanupOf (host w) <> Some sid ->
  run (take (S k) evs) w = run (take k evs) w.
Proof.
  intros HI Ht Hv Hk Hne.
  rewrite (take_S_r _ _ _ Hk), run_app.
  rewrite <- (take_drop_middle _ _ _ Hk) in Ht, Hv.
  apply Forall_app in Ht as [Ht1 Ht2]. apply Forall_cons in Ht2 as [Hti _].
  apply valid_app in Hv as [Hv1 [Hen _]].
  destruct (traffic_run (take k evs) w HI Ht1 Hv1) as (HI' & Hs & _).
  destruct (traffic_step _ _ HI' Hti Hen) as (_ & Hsame & _).
  simpl. apply (Hsame sid data eq_refl).
  destruct Hs as (-> & _). done.
Qed.

(** *** The engine sees the queue in order *)

(** C1. Within one session, whatever payloads are enqueued through
    [queueMessage] and whenever the timers of the processor fire: the new
    log entries are engine calls on the session's handle and discards of
    the overflow policy; together they are, in order, a prefix of what was
    waiting followed by what was enqueued, the rest being still in the
    queue; so the engine receives, in enqueue order, exactly the payloads
    that no overflow dropped.  Nothing is dropped while at most 100
    payloads are involved, and in a session that starts with an empty queue
    and an engine every payload goes to the engine as it arrives.  No
    message is in flight between two operations, so no engine call
    overlaps another; and the timers empty what is left of the queue. *)
Theorem engine_sees_queue_in_order w ops :
  processing w = false ->
  let w' := session_run ops w in
  exists Δ, log w' = log w ++ Δ /\
    Forall (queue_event (hid <$> book w)) Δ /\
    departed Δ ++ queue w' = queue w ++ enqueued ops /\
    sublist (applied Δ) (queue w ++ enqueued ops) /\
    ((length (queue w) + length (enqueued ops) <= 100)%nat ->
       dropped Δ = [] /\ applied Δ ++ queue w' = queue w ++ enqueued ops) /\
    (is_Some (book w) -> queue w = [] ->
       applied Δ = enqueued ops /\ queue w' = [] /\ dropped Δ = []) /\
    (forall k, processing (session_run (take k ops) w) = false) /\
    (is_Some (book w) ->
       let w'' := session_run (replicate (length (queue w')) Tick) w' in
       queue w'' = [] /\
       applied (log w'') = applied (log w) ++ applied Δ ++ queue w' /\
       dropped (log w'') = dropped (log w) ++ dropped Δ).
Proof.
  intros Hp w'.
  destruct (session_run_spec ops w Hp)
    as (Δ & Hl & Hf & Hc & Hp' & Hss & Hfit & Hidle).
  fold w' in Hl, Hc, Hp', Hss, Hidle.
  exists Δ. split_and!; try done.
  - etrans; [apply applied_sublist_departed|].
    rewrite <- Hc. by apply sublist_inserts_r.
  - intros Hlen. split; [by apply Hfit|].
    rewrite <- (departed_no_drop _ _ Hf); [done|by apply Hfit].
  - intros k. by destruct (session_run_spec (take k ops) w Hp) as (?&?&?&?&?&?).
  - intros Hb.
    destruct (ticks_drain (length (queue w')) w' Hp') as (Hq & Ha & Hd);
      [by eapply same_session_book|done|].
    cbv zeta. rewrite Hq, Ha, Hd, Hl, applied_app, dropped_app, <- app_assoc.
    done.
Qed.

(** *** The bounded queue *)


(** *** Integrity failures *)

(** C4. When the engine answers a payload with an error whose message
    mentions the checksum, the processor returns normally with the validity
    flag down and the published book and the counter as they were; the
    payload is gone from the queue and nothing is in flight.  A recognised
    update that follows, whether it was already waiting (the timer set by
    the processor runs it) or arrives afterwards, goes to the engine, is
    published, raises the flag again and counts as one update. *)
Theorem checksum_failure_then_recovery w msg rest b e1 message :
  processing w = false -> queue w = msg :: rest -> book w = Some b ->
  apply_and_get (eng b) msg 10 = (e1, Throws (ThrownError message)) ->
  includes "Checksum" message = true ->
  let w1 := fst (processNextMessage w) in
  snd (processNextMessage w) = Returns () /\
  checksumValid (st w1) = false /\ same_book w w1 /\
  queue w1 = rest /\ processing w1 = false /\
  forall next r e2,
    apply_and_get e1 next 10 = (e2, Returns (Some r)) ->
    recognised r = true ->
    forall w2,
      ((exists rest', rest = next :: rest') /\ w2 = fst (timer_fires w1) \/
       rest = [] /\ w2 = fst (queueMessage next w1)) ->
      shows r w2 /\ checksumValid (st w2) = true /\
      updateCount (st w2) = js_succ (updateCount (st w)) /\
      applied (log w2) = applied (log w) ++ [msg; next].
Proof.
  intros Hp Hq Hb Ha Hi w1.
  destruct (processNextMessage_checksum w msg rest b e1 message)
    as (Hc & Hv & Hsame); try done.
  destruct (processNextMessage_head w msg rest b)
    as (w1' & c & Hr & Hq1 & Hp1 & Hl1 & Hb1 & Ht1 & _); try done.
  assert (w1 = w1') as <- by (subst w1; by rewrite Hr).
  rewrite Ha in Hb1. simpl in Hb1.
  split_and!; try done.
  intros next r e2 Ha2 Hr2 w2 Hw2.
  (* the state the processor starts from, either way *)
  assert (exists w0 rest', w2 = fst (processNextMessage w0) /\
            processing w0 = false /\ queue w0 = next :: rest' /\
            book w0 = Some {| hid := hid b; eng := e1 |} /\
            log w0 = log w1 /\ st w0 = st w1)
    as (w0 & rest' & -> & Hp0 & Hq0 & Hb0 & Hl0 & Hs0).
  { destruct Hw2 as [[[rest' ->] ->]|[-> ->]].
    - exists (set_timers (pred (timers (host w1))) w1), rest'.
      cells. simpl. done.
    - exists (pushed next w1), [].
      destruct (pushed_cells next w1) as (Hq0 & Hl0 & ? & ? & ? & _).
      rewrite Hq1 in Hq0, Hl0. change ([] ++ [next]) with [next] in *.
      destruct (overflow_single next) as [Ho Hd]. rewrite Ho in Hq0.
      rewrite Hd in Hl0. simpl in Hl0. rewrite app_nil_r in Hl0.
      split_and!; [done|congruence..]. }
  destruct (processNextMessage_recognised w0 next rest' _ e2 r Hp0 Hq0 Hb0)
    as (_ & Hshow & Hv2 & Hc2); try done.
  destruct (processNextMessage_head w0 next rest' _ Hp0 Hq0 Hb0)
    as (w2' & c2 & Hr2' & _ & _ & Hl2 & _).
  rewrite Hr2' in *. simpl in *.
  destruct Hsame as (_ & _ & _ & _ & Hcount).
  split_and!; try done.
  - rewrite Hc2, Hs0. by f_equal.
  - rewrite Hl2, Hl0, Hl1, !applied_app, <- app_assoc. done.
Qed.

(** *** The processor at rest *)

(** C9. [processNextMessage] returns at once, leaving every cell, the
    timers and the log as they are, when a message is in flight, when the
    queue is empty, or when there is no engine.  A payload enqueued while
    there is no engine therefore stays in the queue, behind the ones that
    were waiting: the call of [queueMessage] applies the overflow policy
    and nothing else, and a timer that fires changes nothing but the
    number of pending timers. *)
Theorem processNextMessage_noop w :
  processing w = true \/ queue w = [] \/ book w = None ->
  processNextMessage w = (w, Returns ()) /\
  (book w = None ->
     forall m,
       queueMessage m w = (pushed m w, Returns ()) /\
       queue (pushed m w) = overflow (queue w ++ [m]) /\
       ((length (queue w) < 100)%nat -> queue (pushed m w) = queue w ++ [m]) /\
       applied (log (pushed m w)) = applied (log w) /\
       st (pushed m w) = st w /\
       queue (fst (timer_fires w)) = queue w /\
       log (fst (timer_fires w)) = log w /\
       st (fst (timer_fires w)) = st w).
Proof.
  intros Hidle. split.
  - destruct Hidle as [?|[?|?]];
      auto using processNextMessage_busy, processNextMessage_empty,
        processNextMessage_no_book.
  - intros Hb m.
    destruct (pushed_cells m w) as (Hq & Hl & _ & Hb' & Hs & _).
    split_and!; try done.
    + rewrite queueMessage_pushed. apply processNextMessage_no_book.
      congruence.
    + intros Hlen. rewrite Hq. unfold overflow.
      rewrite bool_decide_false; [done|]. rewrite length_app. simpl. lia.
    + by rewrite Hl, applied_app, applied_discards, app_nil_r.
    + unfold timer_fires. by rewrite processNextMessage_no_book.
    + unfold timer_fires. by rewrite processNextMessage_no_book.
    + unfold timer_fires. by rewrite processNextMessage_no_book.
Qed.

(** *** Switching instruments *)

(** What a switch resets, and what it leaves. *)
Lemma handleSymbolChange_cells w s :
  sdkReady (st w) = true -> s <> symbol (st w) ->
  let w' := fst (handleSymbolChange s w) in
  st w' = {| symbol := s; connected := connected (st w); bids := [];
             asks := []; spread := None; midPrice := None;
             updateCount := 0; checksumValid := true; sdkReady := true |} /\
  queue w' = [] /\ processing w' = false /\
  book w' = Some {| hid := nextHandle (host w);
                    eng := set_precision (with_depth s 25)
                             (precision_of s).1 (precision_of s).2 |} /\
  wsRef (refs w') = Some (length (sessions (host w))) /\
  cleanupOf (host w') = Some (length (sessions (host w))) /\
  nextHandle (host w') = S (nextHandle (host w)) /\
  sessions (host w') = torn_down w ++ [new_session s] /\
  log w' = log w ++ match cleanupOf (host w) with
                    | Some old => [EvClose old]
                    | None => []
                    end
                 ++ match book w with
                    | Some b => [EvFree (hid b)]
                    | None => []
                    end
                 ++ match wsRef (refs w) with
                    | Some old => [EvClose old]
                    | None => []
                    end
                 ++ [EvCreate (nextHandle (host w)) s 25;
                     EvSetPrecision (nextHandle (host w))
                       (precision_of s).1 (precision_of s).2;
                     EvNewSocket (length (sessions (host w))) WS_URL].
Proof.
  intros Hr Hne. unfold handleSymbolChange.
  rewrite bool_decide_true by done.
  destruct (rerun_connect_cells (set_currentSymbolRef s (setSymbol s w)))
    as (_ & ? & ? & ? & ? & ? & ? & ? & ? & _ & ? & _); [done|].
  split_and!; done.
Qed.

(** C5. Two switches, with any traffic of the sockets and timers between
    them and after them.  Afterwards one run of the connect effect has
    [mounted] set, the one of the second switch, and it is on the second
    symbol.  The second switch closes the socket of the first, releases
    the engine of the first and starts from an empty queue before its own
    engine is created.  From then on the engine calls are made on the new
    handle, with the payloads delivered on the new socket, in order, and
    with no others; a payload that arrives on any other socket leaves
    every cell as it is, so nothing of a superseded session is
    published. *)
Theorem rapid_switches_leave_one_session w s1 s2 mid evs :
  reachable w -> sdkReady (st w) = true ->
  enabled (Select s1) w -> s1 <> symbol (st w) ->
  s2 ∈ SYMBOLS -> s2 <> s1 ->
  let w1 := step (Select s1) w in
  Forall (fun i => traffic i = true) mid -> valid mid w1 ->
  let w2 := step (Select s2) (run mid w1) in
  Forall (fun i => traffic i = true) evs -> valid evs w2 ->
  let w3 := run evs w2 in
  let sid1 := length (sessions (host w)) in
  let sid2 := S sid1 in
  let h1 := nextHandle (host w) in
  let h2 := S h1 in
  (forall sid s, sessions (host w3) !! sid = Some s -> mounted s = true ->
     sid = sid2) /\
  (exists s, sessions (host w3) !! sid2 = Some s /\ mounted s = true /\
     s_symbol s = s2) /\
  log w2 = log (run mid w1) ++
           [EvClose sid1; EvFree h1; EvClose sid1; EvCreate h2 s2 25;
            EvSetPrecision h2 (precision_of s2).1 (precision_of s2).2;
            EvNewSocket sid2 WS_URL] /\
  queue w2 = [] /\ hid <$> book w2 = Some h2 /\
  (exists Δ, log w3 = log w2 ++ Δ /\
     applied Δ = delivered sid2 evs /\
     Forall (traffic_event (Some h2) (Some sid2)) Δ) /\
  (forall k sid data, evs !! k = Some (WsMessage sid data) -> sid <> sid2 ->
     run (take (S k) evs) w2 = run (take k evs) w2).
Proof.
  intros Hreach Hr Hen1 Hne1 Hs2 Hne2 w1 Hmid Hvmid w2 Hevs Hvevs w3
    sid1 sid2 h1 h2.
  pose proof (reachable_inv w Hreach) as HI.
  pose proof (step_inv _ _ HI Hen1) as HI1. fold w1 in HI1.
  destruct (handleSymbolChange_cells w s1 Hr Hne1)
    as (Hst1 & _ & _ & Hb1 & Hws1 & Hc1 & Hn1 & Hss1 & _).
  change (fst (handleSymbolChange s1 w)) with w1 in *.
  destruct (traffic_run mid w1 HI1 Hmid Hvmid) as (HIm & Hsm & _).
  set (wm := run mid w1) in *.
  destruct Hsm as (Hcm & Hnm & Hlm & Ham & Hwm & Hhm & Hym & Hrm).
  assert (Hen2 : enabled (Select s2) wm).
  { split; [|done]. rewrite Ham. destruct HI1 as (_ & _ & Hact & _).
    by destruct (Hact _ Hc1) as (_ & _ & _ & _ & _ & _ & ? & _). }
  pose proof (step_inv _ _ HIm Hen2) as HI2. fold w2 in HI2.
  destruct (handleSymbolChange_cells wm s2)
    as (Hst2 & Hq2 & _ & Hb2 & Hws2 & Hc2 & Hn2 & Hss2 & Hl2).
  { by rewrite Hrm, Hst1. }
  { rewrite Hym, Hst1. done. }
  change (fst (handleSymbolChange s2 wm)) with w2 in *.
  assert (Hlen1 : length (sessions (host wm)) = sid2).
  { rewrite Hlm, Hss1, length_app, torn_down_length. simpl. subst sid2 sid1.
    lia. }
  assert (Hnh : nextHandle (host wm) = h2) by by rewrite Hnm, Hn1.
  rewrite Hlen1, Hnh in *.
  destruct (traffic_run evs w2 HI2 Hevs Hvevs)
    as (HI3 & Hs3 & Δ & Hl3 & Ha3 & Hf3).
  fold w3 in HI3, Hs3, Hl3.
  rewrite Hc2, Hb2 in *. simpl in Hf3.
  destruct Hs3 as (Hc3 & _ & _ & _ & _ & _ & Hy3 & _).
  destruct HI3 as (_ & Hone3 & Hact3 & _).
  split_and!.
  - intros sid s Hsid Hm. specialize (Hone3 sid s Hsid Hm). congruence.
  - destruct (Hact3 sid2) as (s & Hs & Hm & Hsy & _); [congruence|].
    exists s. split_and!; [done..|]. by rewrite Hsy, Hy3, Hst2.
  - rewrite Hl2, Hcm, Hc1, Hwm, Hws1.
    assert (Hbm : exists b, book wm = Some b /\ hid b = h1).
    { rewrite Hb1 in Hhm. simpl in Hhm.
      destruct (book wm) as [b|]; [|done]. exists b. split; [done|].
      by injection Hhm. }
    destruct Hbm as (b & -> & ->). done.
  - done.
  - done.
  - by exists Δ.
  - intros k sid data Hk Hne.
    apply (superseded_message_ignored evs w2 k sid data); try done.
    rewrite Hc2. congruence.
Qed.


(** C10. Whatever the release of the engine handle does, and in
    particular when it throws: a switch and an unmount return normally;
    the call of [free] is made and is followed by the closing of the
    socket; after a switch the queue is empty, nothing is in flight, and
    the refs hold the new handle and the new socket; after an unmount
    the component is gone.  In both cases no earlier run of the connect
    effect is left with [mounted] set, provided at most the pending one
    had it. *)
Theorem teardown_swallows_release_failure w b e' err :
  book w = Some b -> free (eng b) = (e', Throws err) ->
  (forall s, snd (handleSymbolChange s w) = Returns ()) /\
  snd (rerun_connect w) = Returns () /\
  snd (unmount w) = Returns () /\
  (sdkReady (st w) = true ->
     let w' := fst (rerun_connect w) in
     (exists pre post, log w' =
        pre ++ [EvFree (hid b)] ++
        match wsRef (refs w) with Some old => [EvClose old] | None => [] end
        ++ post) /\
     queue w' = [] /\ processing w' = false /\
     hid <$> book w' = Some (nextHandle (host w)) /\
     wsRef (refs w') = Some (length (sessions (host w))) /\
     sessions (host w') = torn_down w ++ [new_session (symbol (st w))]) /\
  (let w' := fst (unmount w) in
   (exists pre, log w' =
      pre ++ [EvFree (hid b)] ++
      match wsRef (refs w) with Some old => [EvClose old] | None => [] end) /\
   book w' = Some {| hid := hid b; eng := e' |} /\
   sessions (host w') = torn_down w /\
   alive (host w') = false /\ cleanupOf (host w') = None) /\
  (one_active w ->
     forall i s, torn_down w !! i = Some s -> mounted s = false).
Proof.
  intros Hb Hfree.
  assert (Hrerun : forall w0 : World E, snd (rerun_connect w0) = Returns ()).
  { intros w0. destruct (sdkReady (st w0)) eqn:Hr.
    - by destruct (rerun_connect_cells w0 Hr) as (? & _).
    - rewrite rerun_connect_eq. unfold connect_effect.
      destruct (after_cleanup_cells w0) as (-> & _). by rewrite Hr. }
  split_and!.
  - intros s. unfold handleSymbolChange. case_bool_decide; [|done].
    apply Hrerun.
  - apply Hrerun.
  - by destruct (unmount_cells w) as (? & _).
  - intros Hr.
    destruct (rerun_connect_cells w Hr)
      as (_ & _ & Hq & Hp & Hbk & Hws & _ & Hss & Hl & _).
    cbv zeta. rewrite Hb in Hl. split_and!; try done.
    + exists (log w ++ match cleanupOf (host w) with
                       | Some old => [EvClose old]
                       | None => []
                       end).
      eexists. rewrite Hl, <- !app_assoc. done.
    + by rewrite Hbk.
  - destruct (unmount_cells w)
      as (_ & _ & _ & _ & _ & Hbk & Hss & Hl & Hc & Ha & _).
    cbv zeta. rewrite Hb in Hl, Hbk. simpl in Hbk. rewrite Hfree in Hbk.
    split_and!; try done.
    exists (log w ++ match cleanupOf (host w) with
                     | Some old => [EvClose old]
                     | None => []
                     end).
    rewrite Hl, <- !app_assoc. done.
  - apply torn_down_unmounted.
Qed.

End QueuedFacts.

(** ** Properties that concern both applications *)

Section BothFacts.

Import Queued.

Context {E : Type} `{WasmOrderbook E}.

(** *** Subscribing *)

(** C7. When the socket of the session on screen opens, the component
    sends one request on it: the method is subscribe, the channel is book,
    the symbol is the one on screen, the depth is 25.  Nothing had been
    sent on that socket before, and the open event cannot come again; in
    every reachable state a socket has sent nothing or this one request
    for its symbol.  The single-symbol application sends the same request
    for its symbol when its socket opens. *)
Theorem subscription_sent_on_open (w : World E) sid s (b : Basic.World E) :
  reachable w -> sessions (host w) !! sid = Some s -> mounted s = true ->
  enabled (WsOpen sid) w -> Basic.mounted b = true ->
  let req (sym : string) :=
    {| method := "subscribe";
       params := {| channel := "book"; p_symbol := [sym]; depth := 25 |} |} in
  let w' := step (WsOpen sid) w in
  s_symbol s = symbol (st w) /\
  log w' = log w ++ [EvSend sid (req (symbol (st w)))] /\
  sends_of sid (log w) = [] /\
  sends_of sid (log w') = [req (symbol (st w))] /\
  connected (st w') = true /\
  ~ enabled (WsOpen sid) w' /\
  (forall (w0 : World E) sid0, reachable w0 ->
     sends_of sid0 (log w0) = [] \/
     exists s0, sessions (host w0) !! sid0 = Some s0 /\ opened s0 = true /\
       sends_of sid0 (log w0) = [req (s_symbol s0)]) /\
  Basic.sent (Basic.ws_onopen b) = Basic.sent b ++ [req Basic.SYMBOL] /\
  Basic.connected (Basic.ws_onopen b) = true.
Proof.
  intros Hreach Hs Hm Hen Hbm req w'.
  destruct (reachable_inv w Hreach) as (_ & Hone & Hact & Hsend).
  destruct (Hact sid (Hone sid s Hs Hm)) as (s' & Hs' & _ & Hsym & _).
  assert (s' = s) as -> by congruence.
  destruct (ws_onopen_cells sid s w Hs)
    as (_ & Hss & _ & _ & _ & _ & _ & _ & Hconn & _ & _ & Hl).
  rewrite Hm, Hsym in *.
  assert (Hnone : sends_of sid (log w) = []).
  { destruct Hen as (s0 & Hs0 & Ho0 & _).
    destruct (Hsend sid) as [?|(s1 & Hs1 & Ho1 & _)]; [done|congruence]. }
  split_and!.
  - done.
  - done.
  - done.
  - subst w'. simpl. rewrite Hl, sends_of_app, Hnone. simpl.
    by rewrite bool_decide_true.
  - done.
  - intros (s0 & Hs0 & Ho0 & _). subst w'. simpl in Hs0.
    rewrite Hss, list_lookup_alter_eq, Hs in Hs0.
    injection Hs0 as <-. done.
  - intros w0 sid0 Hr0.
    destruct (reachable_inv w0 Hr0) as (_ & _ & _ & Hsend0).
    apply Hsend0.
  - unfold Basic.ws_onopen. by rewrite Hbm.
  - unfold Basic.ws_onopen. by rewrite Hbm.
Qed.

(** *** Spread and mid price *)

(** C6, as the code has it.  The multi-symbol application publishes, with
    every recognised snapshot or update, the spread and the mid price that
    the result of the engine carries, whatever they are.  The
    single-symbol application asks the engine for the spread and the mid
    price when the best bid and the best ask are both above zero, and
    otherwise leaves the two published values as they were. *)
Theorem spread_and_mid_as_the_engine_reports
    (w : World E) msg rest b e' r (bw : Basic.World E) data e0 e1 kind :
  processing w = false -> queue w = msg :: rest -> book w = Some b ->
  apply_and_get (eng b) msg 10 = (e', Returns (Some r)) ->
  recognised r = true ->
  Basic.mounted bw = true -> Basic.orderbookRef bw = Some e0 ->
  apply_message e0 data = (e1, Returns kind) ->
  kind = "snapshot" \/ kind = "update" ->
  let w' := fst (processNextMessage w) in
  let bw' := Basic.ws_onmessage data bw in
  spread (st w') = r_spread r /\ midPrice (st w') = r_mid_price r /\
  (gt0 (get_best_bid e1) = true /\ gt0 (get_best_ask e1) = true ->
     Basic.spread bw' = get_spread e1 /\
     Basic.midPrice bw' = get_mid_price e1) /\
  (gt0 (get_best_bid e1) = false \/ gt0 (get_best_ask e1) = false ->
     Basic.spread bw' = Basic.spread bw /\
     Basic.midPrice bw' = Basic.midPrice bw).
Proof.
  intros Hp Hq Hb Ha Hr Hm Ho Hmsg Hk w' bw'.
  destruct (processNextMessage_recognised w msg rest b e' r Hp Hq Hb Ha Hr)
    as (_ & (_ & _ & Hsp & Hmid) & _).
  assert (Hbw : bw' = Basic.show_book e1 (Basic.set_orderbookRef e1 bw)).
  { subst bw'. unfold Basic.ws_onmessage. rewrite Hm, Ho, Hmsg. simpl.
    destruct Hk as [-> | ->]; done. }
  split_and!; [done..| |].
  - intros [Hbid Hask]. rewrite Hbw. unfold Basic.show_book. simpl.
    by rewrite Hbid, Hask.
  - intros Hnot. rewrite Hbw. unfold Basic.show_book. simpl.
    destruct Hnot as [-> | ->]; [done|].
    by destruct (gt0 (get_best_bid e1)).
Qed.

End BothFacts.

(** ** The components on concrete inputs *)

Section Runs.

Import Queued.

Local Abbreviation W := (World Demo.Book).

Ltac computed := vm_compute; reflexivity.

Lemma live_reachable : reachable Demo.live.
Proof.
  unfold Demo.live. apply reachable_run; [apply reach_initial|].
  apply validb_sound. computed.
Qed.

Lemma engine_sees_queue_in_order_witness :
  let ops := [Enqueue "snapshot"; Enqueue "corrupt"; Tick;
              Enqueue "ask-improves"] in
  exists Δ, log (session_run ops Demo.live) = log Demo.live ++ Δ /\
            applied Δ = ["snapshot"; "corrupt"; "ask-improves"] /\
            queue (session_run ops Demo.live) = [].
Proof.
  intros ops.
  destruct (engine_sees_queue_in_order Demo.live ops ltac:(computed))
    as (Δ & Hl & _ & _ & _ & _ & Hidle & _).
  destruct Hidle as (Ha & Hq & _);
    [exists {| hid := 0%nat; eng := Demo.empty_book |}; computed
    |computed|].
  exists Δ. split; [exact Hl|]. split; [exact Ha|exact Hq].
Defined.



Lemma checksum_failure_then_recovery_witness :
  let w : W := Demo.waiting ["corrupt"; "snapshot"] in
  let w1 := fst (processNextMessage w) in
  checksumValid (st w1) = false /\ same_book w w1 /\
  checksumValid (st (fst (timer_fires w1))) = true.
Proof.
  intros w w1.
  destruct (checksum_failure_then_recovery w "corrupt" ["snapshot"]
              {| hid := 0%nat; eng := Demo.empty_book |} Demo.empty_book
              "Checksum mismatch: expected 1, got 2"
              ltac:(computed) ltac:(computed) ltac:(computed)
              ltac:(computed) ltac:(computed))
    as (_ & Hv & Hsame & _ & _ & Hnext).
  split; [exact Hv|]. split; [exact Hsame|].
  destruct (Hnext "snapshot"
              (Demo.result_of
                 {| Demo.d_bids := Demo.snapshot_bids;
                    Demo.d_asks := Demo.snapshot_asks;
                    Demo.d_freed := false |} "snapshot" 10)
              {| Demo.d_bids := Demo.snapshot_bids;
                 Demo.d_asks := Demo.snapshot_asks;
                 Demo.d_freed := false |}
              ltac:(computed) ltac:(computed) (fst (timer_fires w1)))
    as (_ & Hv2 & _).
  - left. split; [by eexists|reflexivity].
  - exact Hv2.
Defined.

Lemma processNextMessage_noop_witness :
  processNextMessage (initial : W) = (initial, Returns ()) /\
  queue (fst (queueMessage "snapshot" (initial : W))) = ["snapshot"].
Proof.
  destruct (processNextMessage_noop (initial : W)) as [Hnoop Hkeep].
  { right; right; reflexivity. }
  split; [exact Hnoop|].
  destruct (Hkeep eq_refl "snapshot") as (Hq & _ & Hfit & _).
  rewrite Hq. apply Hfit. simpl. lia.
Defined.

(** C3 on a concrete run: the socket is open and a snapshot is on screen
    when the user picks another symbol.  The book, the counter, the flag
    and the queue are reset, the new socket is still connecting, and the
    connection indicator stays on. *)
Lemma switch_leaves_connected_on :
  let w' : W := step (Select "ETH/USD") Demo.showing in
  connected (st Demo.showing) = true /\
  bids (st Demo.showing) <> [] /\
  bids (st w') = [] /\ asks (st w') = [] /\
  spread (st w') = None /\ midPrice (st w') = None /\
  checksumValid (st w') = true /\ updateCount (st w') = 0 /\
  queue w' = [] /\
  sessions (host w') !! 1%nat = Some (new_session "ETH/USD") /\
  connected (st w') = true.
Proof. cbv zeta. split_and!; by vm_compute. Qed.

Lemma rapid_switches_witness :
  let w2 : W :=
    step (Select "SOL/USD") (run [] (step (Select "ETH/USD") Demo.live)) in
  let evs := [WsMessage 0%nat "snapshot"; WsOpen 2%nat;
              WsMessage 2%nat "snapshot"; WsOpen 1%nat] in
  exists Δ, log (run evs w2) = log w2 ++ Δ /\ applied Δ = ["snapshot"].
Proof.
  intros w2 evs.
  destruct (rapid_switches_leave_one_session Demo.live "ETH/USD" "SOL/USD"
              [] evs live_reachable ltac:(computed))
    as (_ & _ & _ & _ & _ & HΔ & _).
  - apply enabledb_sound. computed.
  - discriminate.
  - apply (bool_decide_unpack _). computed.
  - discriminate.
  - constructor.
  - exact I.
  - repeat constructor.
  - apply validb_sound. computed.
  - destruct HΔ as (Δ & Hl & Ha & _). exists Δ.
    split; [exact Hl|]. rewrite Ha. computed.
Defined.

(** C6, as the claim has it, fails in the single-symbol application: after
    a snapshot the bid side empties; the best bid is no longer above zero,
    and the spread and the mid price on screen are still those of the
    snapshot instead of being undefined. *)
Lemma stale_spread_after_bids_gone :
  let bw := Basic.ws_onmessage "bids-gone" Demo.basic_showing in
  (exists e, Basic.orderbookRef bw = Some e /\
             gt0 (get_best_bid e) = false) /\
  Basic.bids bw = [] /\
  Basic.spread bw = Basic.spread Demo.basic_showing /\
  Basic.midPrice bw = Basic.midPrice Demo.basic_showing /\
  Basic.spread bw = Some (1 # 2)%Q /\
  Basic.midPrice bw = Some (401 # 4)%Q /\
  Basic.spread bw <> None /\ Basic.midPrice bw <> None.
Proof.
  cbv zeta. split_and!; try by vm_compute.
  eexists. split; by vm_compute.
Qed.

Lemma spread_and_mid_witness :
  spread (st (fst (processNextMessage (Demo.waiting ["snapshot"]))))
  = Some (1 # 2)%Q /\
  Basic.spread (Basic.ws_onmessage "bids-gone" Demo.basic_showing)
  = Basic.spread Demo.basic_showing.
Proof.
  destruct (spread_and_mid_as_the_engine_reports
              (Demo.waiting ["snapshot"]) "snapshot" []
              {| hid := 0%nat; eng := Demo.empty_book |}
              {| Demo.d_bids := Demo.snapshot_bids;
                 Demo.d_asks := Demo.snapshot_asks;
                 Demo.d_freed := false |}
              (Demo.result_of
                 {| Demo.d_bids := Demo.snapshot_bids;
                    Demo.d_asks := Demo.snapshot_asks;
                    Demo.d_freed := false |} "snapshot" 10)
              Demo.basic_showing "bids-gone"
              {| Demo.d_bids := Demo.snapshot_bids;
                 Demo.d_asks := Demo.snapshot_asks;
                 Demo.d_freed := false |}
              {| Demo.d_bids := [];
                 Demo.d_asks := Demo.snapshot_asks;
                 Demo.d_freed := false |}
              "update"
              ltac:(computed) ltac:(computed) ltac:(computed)
              ltac:(computed) ltac:(computed) ltac:(computed)
              ltac:(computed) ltac:(computed) (or_intror eq_refl))
    as (Hsp & _ & _ & Hstale).
  split; [exact Hsp|]. apply Hstale. left. reflexivity.
Defined.

Lemma subscription_sent_on_open_witness :
  sends_of 0%nat (log Demo.live)
  = [{| method := "subscribe";
        params := {| channel := "book"; p_symbol := ["BTC/USD"];
                     depth := 25 |} |}].
Proof.
  assert (Hr : reachable (step InitResolved initial : W)).
  { apply (reach_step (initial : W) InitResolved reach_initial I). }
  destruct (subscription_sent_on_open (step InitResolved initial : W) 0%nat
              (new_session "BTC/USD") Demo.basic_up Hr
              ltac:(computed) ltac:(computed))
    as (_ & _ & _ & Hsent & _).
  - apply enabledb_sound. computed.
  - computed.
  - exact Hsent.
Defined.


Lemma teardown_swallows_release_failure_witness :
  snd (unmount Demo.gone) = Returns () /\
  snd (handleSymbolChange "ETH/USD" Demo.gone) = Returns () /\
  alive (host (fst (unmount Demo.gone))) = false.
Proof.
  destruct (teardown_swallows_release_failure Demo.gone
              {| hid := 0%nat;
                 eng := {| Demo.d_bids := []; Demo.d_asks := [];
                           Demo.d_freed := true |} |}
              {| Demo.d_bids := []; Demo.d_asks := [];
                 Demo.d_freed := true |}
              (ThrownError "null pointer passed to rust")
              ltac:(computed) ltac:(computed))
    as (Hswitch & _ & Hun & _ & (_ & _ & _ & Ha & _) & _).
  split; [exact Hun|]. split; [apply Hswitch|exact Ha].
Defined.

End Runs.

(** ** More properties of the multi-symbol application *)

Section MoreQueuedFacts.

Import Queued.

Context {E : Type} `{WasmOrderbook E}.

Implicit Types (w : World E) (m : Msg) (sid : nat).

(** *** Every outcome of the engine call *)

Lemma processNextMessage_classified w msg rest b e' out :
  processing w = false -> queue w = msg :: rest -> book w = Some b ->
  apply_and_get (eng b) msg 10 = (e', out) ->
  let w' := fst (processNextMessage w) in
  st w' = match classify out with
          | Published r => st (publish r w)
          | IntegrityFailure => st (setChecksumValid false w)
          | Ignored => st w
          end /\
  snd (processNextMessage w) =
    match out with
    | Throws ThrownNullish => Throws (ThrownError "TypeError")
    | _ => Returns ()
    end.
Proof.
  intros Hp Hq Hb Ha. unfold processNextMessage. rewrite Hp, Hq, Hb.
  unfold try_finally, try_catch, apply_and_publish, finish, on_sdk_error,
    classify.
  cells. simpl. rewrite Hb, Ha. simpl.
  destruct out as [[r|]|e];
    [destruct (recognised r)| |
     destruct e as [| |message];
       [| |destruct (includes "Checksum" message) eqn:Hi;
           [rewrite bool_decide_true
              by by apply includes_Checksum_nonempty
           |rewrite andb_false_r]]];
    simpl; destruct (bool_decide (rest = [])); done.
Qed.


(** *** Handles in the log *)

Lemma handles_from_app l1 l2 live next :
  handles_from live next (l1 ++ l2) =
  match handles_from live next l1 with
  | Some (live', next') => handles_from live' next' l2
  | None => None
  end.
Proof.
  revert live next. induction l1 as [|e l1 IH]; intros live next; [done|].
  destruct e; simpl; try apply IH.
  - destruct live; [done|]. case_bool_decide; [apply IH|done].
  - case_bool_decide; [apply IH|done].
  - case_bool_decide; [apply IH|done].
  - case_bool_decide; [apply IH|done].
Qed.

(** Closing a socket is not an event of a handle. *)
Lemma handles_from_closes (c : option nat) live next :
  handles_from live next
    match c with Some old => [EvClose old] | None => [] end
  = Some (live, next).
Proof. by destruct c. Qed.

Lemma handles_from_free (bk : option (Handle E)) next :
  handles_from (hid <$> bk) next
    match bk with Some b => [EvFree (hid b)] | None => [] end
  = Some (None, next).
Proof.
  destruct bk as [b|]; [|done]. simpl. by rewrite bool_decide_true.
Qed.

Lemma js_succ_bounds c : 0 <= c <= 2 ^ 53 -> 0 <= js_succ c <= 2 ^ 53.
Proof.
  intros Hc. unfold js_succ. destruct (c <? 2 ^ 53) eqn:Hlt; [|done].
  apply Z.ltb_lt in Hlt. lia.
Qed.

Lemma js_succ_step c : c <= js_succ c <= c + 1.
Proof. unfold js_succ. destruct (c <? 2 ^ 53); lia. Qed.

(** *** A payload on the socket of the session on screen *)

Lemma queueMessage_quiet_exact data w b :
  quiet w -> book w = Some b ->
  let w' := fst (queueMessage data w) in
  log w' = log w ++ [EvApply (hid b) data 10] /\
  timers (host w') = timers (host w) /\
  st w' = match classify (snd (apply_and_get (eng b) data 10)) with
          | Published r => st (publish r w)
          | IntegrityFailure => st (setChecksumValid false w)
          | Ignored => st w
          end.
Proof.
  intros [Hp Hq] Hb. cbv zeta. rewrite queueMessage_pushed.
  destruct (pushed_cells data w) as (Hq0 & Hl0 & Hp0 & Hb0 & Hs0 & Ht0 & _).
  rewrite Hq in Hq0, Hl0. change ([] ++ [data]) with [data] in Hq0, Hl0.
  destruct (overflow_single data) as [Ho Hd]. rewrite Ho in Hq0.
  rewrite Hd in Hl0. simpl in Hl0. rewrite app_nil_r in Hl0.
  rewrite Hp in Hp0. rewrite Hb in Hb0.
  destruct (processNextMessage_head (pushed data w) data [] b Hp0 Hq0 Hb0)
    as (w1 & c & Hr & _ & _ & Hl1 & _ & Ht1 & _).
  destruct (apply_and_get (eng b) data 10) as [e' out] eqn:Ha.
  destruct (processNextMessage_classified (pushed data w) data [] b e' out
              Hp0 Hq0 Hb0 Ha) as [Hst _].
  rewrite Hr in *. simpl in *.
  split_and!.
  - by rewrite Hl1, Hl0.
  - by rewrite Ht1, Ht0.
  - rewrite Hst. unfold publish, setChecksumValid, setUpdateCount,
      setMidPrice, setSpread, setAsks, setBids, on_st. simpl.
    rewrite Hs0. done.
Qed.

Lemma classified_count (out : Completion (option BookResult)) w :
  0 <= updateCount (st w) <= 2 ^ 53 ->
  let s' := match classify out with
            | Published r => st (publish r w)
            | IntegrityFailure => st (setChecksumValid false w)
            | Ignored => st w
            end in
  0 <= updateCount s' <= 2 ^ 53 /\
  updateCount (st w) <= updateCount s' <= updateCount (st w) + 1 /\
  symbol s' = symbol (st w) /\ sdkReady s' = sdkReady (st w) /\
  connected s' = connected (st w).
Proof.
  intros Hc. destruct (classify out); simpl.
  - pose proof (js_succ_bounds _ Hc). pose proof (js_succ_step (updateCount (st w))).
    done.
  - split_and!; try done; lia.
  - split_and!; try done; lia.
Qed.

(** *** Sockets *)

Lemma closing_shut s : is_shut (readyState (closing s)) = true.
Proof. by destruct s as [? ? [] ?]. Qed.

Lemma torn_down_shut w :
  one_active w -> sockets_ok w ->
  forall i s, torn_down w !! i = Some s -> is_shut (readyState s) = true.
Proof.
  intros Hone Hok i s.
  assert (Hret : forall s0, retired w !! i = Some s0 ->
                   is_shut (readyState s0) = true).
  { intros s0. unfold retired.
    destruct (cleanupOf (host w)) as [sid|] eqn:Hc.
    - destruct (decide (sid = i)) as [->|Hne].
      + rewrite list_lookup_alter_eq.
        destruct (alter unmounting i (sessions (host w)) !! i); [|done].
        intros [= <-]. apply closing_shut.
      + rewrite !list_lookup_alter_ne by done. intros Hs0.
        apply (Hok i s0 Hs0). destruct (mounted s0) eqn:Hm; [|done].
        specialize (Hone i s0 Hs0 Hm). congruence.
    - intros Hs0. apply (Hok i s0 Hs0).
      destruct (mounted s0) eqn:Hm; [|done].
      specialize (Hone i s0 Hs0 Hm). congruence. }
  unfold torn_down. destruct (wsRef (refs w)) as [old|]; [|apply Hret].
  destruct (decide (old = i)) as [->|Hne].
  - rewrite list_lookup_alter_eq. destruct (retired w !! i); [|done].
    intros [= <-]. apply closing_shut.
  - rewrite list_lookup_alter_ne by done. apply Hret.
Qed.


(** *** The second invariant *)

Lemma dropped_lifecycle (a c : option nat) (bk : option (Handle E))
    (l : list Event) :
  dropped l = [] ->
  dropped (match a with Some old => [EvClose old] | None => [] end
           ++ match bk with Some b => [EvFree (hid b)] | None => [] end
           ++ match c with Some old => [EvClose old] | None => [] end
           ++ l) = [].
Proof. intros Hl. by destruct a, bk, c. Qed.

Lemma rerun_connect_currentSymbolRef w :
  sdkReady (st w) = true ->
  currentSymbolRef (refs (fst (rerun_connect w))) = currentSymbolRef (refs w).
Proof.
  intros Hr. rewrite rerun_connect_eq.
  destruct (after_cleanup_cells w) as (Hst & Hrefs & _).
  destruct (connect_effect_cells (after_cleanup w))
    as (_ & _ & _ & _ & _ & _ & Hcur & _); [congruence|].
  by rewrite Hcur, Hrefs.
Qed.

Lemma initial_inv2 : Inv2 (initial : World E).
Proof. unfold Inv2, unbuffered, pristine. split_and!; try done. Qed.

Lemma rerun_connect_inv2 w :
  one_active w -> unbuffered w ->
  handles_from None 0 (log w) = Some (hid <$> book w, nextHandle (host w)) ->
  sockets_ok w -> currentSymbolRef (refs w) = symbol (st w) ->
  alive (host w) = true -> sdkReady (st w) = true ->
  Inv2 (fst (rerun_connect w)).
Proof.
  intros Hone [Ht Hd] Hh Hok Hcur Ha Hr.
  destruct (rerun_connect_cells w Hr)
    as (_ & Hst & _ & _ & Hb' & _ & _ & Hss' & Hl' & Ht' & Hn' & Ha').
  pose proof (rerun_connect_currentSymbolRef w Hr) as Hcur'.
  split_and!.
  - split; [congruence|]. rewrite Hl', dropped_app, Hd. simpl.
    by apply dropped_lifecycle.
  - rewrite Hl'.
    rewrite handles_from_app, Hh. cbv beta iota.
    rewrite handles_from_app, handles_from_closes. cbv beta iota.
    rewrite handles_from_app, handles_from_free. cbv beta iota.
    rewrite handles_from_app, handles_from_closes. cbv beta iota.
    unfold live_handle. rewrite Ha', Ha, Hb', Hn'. simpl.
    by rewrite !bool_decide_true.
  - intros i s. rewrite Hss'. intros Hi Hm.
    apply lookup_app_Some in Hi as [Hi|[_ Hi]].
    + by apply (torn_down_shut w Hone Hok i s).
    + destruct (i - length (torn_down w))%nat; [|done].
      injection Hi as <-. done.
  - by rewrite Hcur', Hst, Hcur.
  - by rewrite Hst.
  - by rewrite Hst.
  - rewrite Hst. simpl. done.
  - rewrite Ha', Ha. done.
Qed.

Lemma unmount_inv2 w :
  Inv w -> Inv2 w -> alive (host w) = true -> Inv2 (fst (unmount w)).
Proof.
  intros (Hq & Hone & Hact & _)
    ([Ht Hd] & Hh & Hok & Hcur & Hcount & Hpr & _) Ha.
  destruct (unmount_cells w)
    as (_ & Hst & _ & _ & Hws & Hbk & Hss & Hl & Hc & Ha' & Ht' & Hn').
  unfold live_handle in Hh. rewrite Ha in Hh.
  split_and!.
  - split; [congruence|]. rewrite Hl, dropped_app, Hd. simpl.
    rewrite <- (app_nil_r (match wsRef (refs w) with
                           | Some old => [EvClose old]
                           | None => []
                           end)).
    by apply dropped_lifecycle.
  - rewrite Hl.
    rewrite handles_from_app, Hh. cbv beta iota.
    rewrite handles_from_app, handles_from_closes. cbv beta iota.
    rewrite handles_from_app, handles_from_free. cbv beta iota.
    rewrite handles_from_closes.
    unfold live_handle. by rewrite Ha', Hn'.
  - intros i s. rewrite Hss. intros Hi _.
    by apply (torn_down_shut w Hone Hok i s).
  - cells. rewrite Hst. rewrite <- Hcur.
    unfold unmount, unmount_cleanup, seq, connect_cleanup, try_free,
      try_catch, call_free, ws_close, lift, ret.
    destruct w as [s0 [ws bk q pr cs] [ss cl tm nh al tr]]. cbn.
    destruct cl; cbn; (destruct bk as [b|]; cbn;
      [destruct (free (eng b)) as [e' [[]|err]]; cbn|]);
      destruct ws; done.
  - rewrite Hst. apply Hcount.
  - rewrite Hst. apply Hcount.
  - rewrite Hst. intros Hr. destruct (Hpr Hr) as (Hl0 & Hs0 & Hb0 & Hw0 & Hc0).
    unfold pristine. rewrite Hl, Hss, Hbk, Hws, Hc, Hl0, Hb0, Hw0, Hc0.
    unfold torn_down, retired. rewrite Hw0, Hc0, Hs0. done.
  - done.
Qed.

Lemma step_inv2 i w : Inv w -> Inv2 w -> enabled i w -> Inv2 (step i w).
Proof.
  intros HI HI2 Hen.
  pose proof HI as (Hq & Hone & Hact & Hsend).
  pose proof HI2 as ([Ht Hd] & Hh & Hok & Hcur & Hcount & Hpr & Hdead).
  destruct i as [|s| |sid|sid data|sid|sid|]; simpl.
  - (* init() resolved *)
    unfold init_resolved.
    destruct (alive (host w)) eqn:Ha; [|done].
    destruct (sdkReady (st w)) eqn:Hr; [done|]. simpl.
    destruct (Hpr eq_refl) as (Hl0 & Hs0 & Hb0 & Hw0 & Hc0).
    apply rerun_connect_inv2; try done.
    unfold live_handle in Hh. by rewrite Ha in Hh.
  - (* a symbol is picked *)
    unfold handleSymbolChange. case_bool_decide as Hne; [|done].
    destruct Hen as [Ha _].
    destruct (sdkReady (st w)) eqn:Hr.
    + apply rerun_connect_inv2; try done.
      unfold live_handle in Hh. by rewrite Ha in Hh.
    + destruct (Hpr eq_refl) as (Hl0 & Hs0 & Hb0 & Hw0 & Hc0).
      rewrite rerun_connect_eq. unfold after_cleanup. simpl. rewrite Hc0.
      unfold connect_effect. simpl. rewrite Hr. simpl.
      unfold Inv2, unbuffered, pristine, sockets_ok, live_handle in *.
      cells. simpl. split_and!; try done; apply Hcount.
  - by apply unmount_inv2.
  - (* a socket opens *)
    destruct Hen as (s & Hs & _).
    destruct (ws_onopen_cells sid s w Hs)
      as (Hrefs & Hss & Hc & Ha & Ht' & Hn & Hsym & Hrd & _ &
          (_ & _ & _ & _ & Hcnt) & _ & Hl).
    split_and!.
    + split; [congruence|]. rewrite Hl, dropped_app, Hd.
      by destruct (mounted s).
    + rewrite Hl, handles_from_app, Hh. unfold live_handle. cells.
      rewrite Ha, Hn, Hrefs. by destruct (mounted s).
    + intros i s'. rewrite Hss. destruct (decide (sid = i)) as [->|Hne].
      * rewrite list_lookup_alter_eq, Hs. intros [= <-] Hm.
        specialize (Hok i s Hs Hm). by destruct s as [? ? [] ?].
      * rewrite list_lookup_alter_ne by done. apply Hok.
    + by rewrite Hrefs, Hsym.
    + rewrite Hcnt. apply Hcount.
    + rewrite Hcnt. apply Hcount.
    + rewrite Hrd. intros Hr. destruct (Hpr Hr) as (_ & Hs0 & _).
      by rewrite Hs0 in Hs.
    + rewrite Ha, Hc. done.
  - (* a payload arrives *)
    destruct Hen as (s & Hs & _). unfold ws_onmessage. rewrite Hs.
    destruct (mounted s) eqn:Hm; [|done]. simpl.
    pose proof (Hone sid s Hs Hm) as Hc.
    destruct (Hact sid Hc) as (_ & _ & _ & _ & _ & [b Hb] & Ha & Hr).
    destruct (queueMessage_quiet data w Hq (ex_intro _ b Hb))
      as (_ & Hss & _).
    destruct (queueMessage_quiet_exact data w b Hq Hb) as (Hl & Ht' & Hst).
    destruct (classified_count (snd (apply_and_get (eng b) data 10)) w Hcount)
      as (Hcnt & _ & Hsym & Hrd & _).
    rewrite <- Hst in Hcnt, Hsym, Hrd.
    destruct Hss as (Hss & Hc' & Hn & Ha' & _ & Hcur' & Hhid & _).
    split_and!.
    + split; [congruence|]. by rewrite Hl, dropped_app, Hd.
    + rewrite Hl, handles_from_app, Hh. unfold live_handle.
      rewrite Ha', Ha, Hhid, Hn, Hb. simpl. by rewrite bool_decide_true.
    + intros i s'. rewrite Hss. apply Hok.
    + by rewrite Hcur', Hsym.
    + apply Hcnt.
    + apply Hcnt.
    + rewrite Hrd, Hr. done.
    + rewrite Ha', Ha. done.
  - (* a socket closes *)
    destruct Hen as (s & Hs & _).
    destruct (ws_onclose_cells sid s w Hs)
      as (Hrefs & Hss & Hc & Ha & Ht' & Hn & Hsym & Hrd & _ &
          (_ & _ & _ & _ & Hcnt) & _ & Hl).
    split_and!.
    + split; [congruence|]. by rewrite Hl.
    + rewrite Hl, Hh. unfold live_handle. cells. by rewrite Ha, Hn, Hrefs.
    + intros i s'. rewrite Hss. destruct (decide (sid = i)) as [->|Hne].
      * rewrite list_lookup_alter_eq, Hs. by intros [= <-] Hm.
      * rewrite list_lookup_alter_ne by done. apply Hok.
    + by rewrite Hrefs, Hsym.
    + rewrite Hcnt. apply Hcount.
    + rewrite Hcnt. apply Hcount.
    + rewrite Hrd. intros Hr. destruct (Hpr Hr) as (_ & Hs0 & _).
      by rewrite Hs0 in Hs.
    + rewrite Ha, Hc. done.
  - done.
  - (* no timer is pending *)
    simpl in Hen. lia.
Qed.

Lemma reachable_inv2 w : reachable w -> Inv2 w.
Proof.
  induction 1 as [|w i Hr IH Hen]; [apply initial_inv2|].
  apply step_inv2; [by apply reachable_inv|done..].
Qed.


(** A handle that a log mentions is the one live at its start or one
    created later. *)
Lemma handles_from_mentions l : forall live next r,
  handles_from live next l = Some r ->
  (forall x, live = Some x -> (x < next)%nat) ->
  Forall (fun e => forall h, handle_of e = Some h ->
            live = Some h \/ (next <= h)%nat) l /\
  (forall x, r.1 = Some x -> (x < r.2)%nat) /\ (next <= r.2)%nat.
Proof.
  induction l as [|e l IH]; intros live next r Hr Hlt.
  { injection Hr as <-. split_and!; [constructor|done|done]. }
  assert (Hweak : forall live' next',
    (forall x, live' = Some x -> (x < next')%nat) -> (next <= next')%nat ->
    (forall h, live' = Some h -> live = Some h \/ (next <= h)%nat) ->
    handles_from live' next' l = Some r ->
    Forall (fun e => forall h, handle_of e = Some h ->
              live = Some h \/ (next <= h)%nat) l /\
    (forall x, r.1 = Some x -> (x < r.2)%nat) /\ (next <= r.2)%nat).
  { intros live' next' Hlt' Hle Hsub Hr'.
    destruct (IH live' next' r Hr' Hlt') as (Hf & Hb & Hn).
    split_and!; [|done|lia].
    eapply Forall_impl; [exact Hf|]. intros e' He' h Hh.
    destruct (He' h Hh) as [Hl|Hl]; [by apply Hsub|right; lia]. }
  destruct e; simpl in Hr.
  - destruct live as [x|]; [done|]. case_bool_decide as Hh; [|done].
    subst h.
    destruct (Hweak (Some next) (S next)) as (Hf & Hb & Hn); try done.
    { intros x [= <-]. lia. }
    { lia. }
    { intros h [= <-]. right. lia. }
    split_and!; [|done..]. constructor; [|done].
    intros h [= <-]. right. lia.
  - case_bool_decide as Hh; [|done].
    destruct (Hweak live next) as (Hf & Hb & Hn); try done; [by left|].
    split_and!; [|done..]. constructor; [|done].
    intros h' [= <-]. by left.
  - case_bool_decide as Hh; [|done].
    destruct (Hweak live next) as (Hf & Hb & Hn); try done; [by left|].
    split_and!; [|done..]. constructor; [|done].
    intros h' [= <-]. by left.
  - case_bool_decide as Hh; [|done].
    destruct (Hweak None next) as (Hf & Hb & Hn); try done.
    split_and!; [|done..]. constructor; [|done].
    intros h' [= <-]. by left.
  - destruct (Hweak live next) as (Hf & Hb & Hn); try done; [by left|].
    split_and!; [|done..]. by constructor.
  - destruct (Hweak live next) as (Hf & Hb & Hn); try done; [by left|].
    split_and!; [|done..]. by constructor.
  - destruct (Hweak live next) as (Hf & Hb & Hn); try done; [by left|].
    split_and!; [|done..]. by constructor.
  - destruct (Hweak live next) as (Hf & Hb & Hn); try done; [by left|].
    split_and!; [|done..]. by constructor.
Qed.

(** Once a handle is released, a disciplined log does not mention it
    again. *)
Lemma handles_from_released l1 h l2 r :
  handles_from None 0 (l1 ++ EvFree h :: l2) = Some r ->
  Forall (fun e => handle_of e <> Some h) l2.
Proof.
  rewrite handles_from_app.
  destruct (handles_from None 0 l1) as [[live next]|] eqn:H1; [|done].
  destruct (handles_from_mentions l1 None 0%nat (live, next) H1)
    as (_ & Hb & _); [done|].
  simpl. case_bool_decide as Hh; [|done]. subst live. intros H2.
  destruct (handles_from_mentions l2 None next r H2) as (Hf & _); [done|].
  specialize (Hb h eq_refl). simpl in Hb.
  eapply Forall_impl; [exact Hf|]. intros e He Heq.
  destruct (He h Heq) as [?|?]; [done|lia].
Qed.


(** *** What the processor does with each answer *)

(** X1. With a payload waiting, an engine and nothing in flight, what is
    on screen after [processNextMessage] depends on the answer of the
    engine alone: a snapshot or update is published whole (both sides,
    spread, mid price, one more update, flag up); an error whose message
    mentions the checksum lowers the flag and touches nothing else; every
    other answer (no result, another kind of message, an error of another
    kind or without a message, a thrown string, a thrown [null]) leaves the
    screen as it was. *)
Theorem processor_publishes_by_class w msg rest b e' out :
  processing w = false -> queue w = msg :: rest -> book w = Some b ->
  apply_and_get (eng b) msg 10 = (e', out) ->
  let w' := fst (processNextMessage w) in
  match out with
  | Returns (Some r) =>
      if bool_decide (msg_type r = "update")
         || bool_decide (msg_type r = "snapshot")
      then shows r w' /\ checksumValid (st w') = true /\
           updateCount (st w') = js_succ (updateCount (st w)) /\
           symbol (st w') = symbol (st w) /\
           connected (st w') = connected (st w)
      else st w' = st w
  | Throws (ThrownError message) =>
      if includes "Checksum" message
      then checksumValid (st w') = false /\ same_book w w' /\
           symbol (st w') = symbol (st w) /\
           connected (st w') = connected (st w)
      else st w' = st w
  | _ => st w' = st w
  end.
Proof.
  intros Hp Hq Hb Ha w'.
  destruct (processNextMessage_classified w msg rest b e' out Hp Hq Hb Ha)
    as [Hst _].
  fold w' in Hst. unfold classify, recognised in Hst.
  destruct out as [[r|]|[| |message]]; try done.
  - destruct (_ || _); [|done]. unfold shows. by rewrite Hst.
  - destruct (includes "Checksum" message); [|done].
    unfold same_book. by rewrite Hst.
Qed.

(** X2. In the same situation the processor always finishes the message:
    it is gone from the queue, the engine was called once with depth 10,
    the in-flight flag is down again, and one timer is set exactly when
    payloads are left.  The call returns normally unless the engine threw
    [undefined] or [null]: then reading [e.message] in the handler throws,
    and that exception leaves the processor, after the same clean-up. *)
Theorem processor_always_finishes w msg rest b e' out :
  processing w = false -> queue w = msg :: rest -> book w = Some b ->
  apply_and_get (eng b) msg 10 = (e', out) ->
  let w' := fst (processNextMessage w) in
  queue w' = rest /\ processing w' = false /\
  log w' = log w ++ [EvApply (hid b) msg 10] /\
  book w' = Some {| hid := hid b; eng := e' |} /\
  timers (host w') = (if bool_decide (rest = []) then timers (host w)
                      else S (timers (host w))) /\
  (snd (processNextMessage w) = Returns () <-> out <> Throws ThrownNullish) /\
  (out = Throws ThrownNullish ->
     snd (processNextMessage w) = Throws (ThrownError "TypeError") /\
     st w' = st w).
Proof.
  intros Hp Hq Hb Ha w'.
  destruct (processNextMessage_head w msg rest b Hp Hq Hb)
    as (w1 & c & Hr & Hq1 & Hp1 & Hl1 & Hb1 & Ht1 & _).
  destruct (processNextMessage_classified w msg rest b e' out Hp Hq Hb Ha)
    as [Hst Hc].
  subst w'. rewrite Hr in *. rewrite Ha in Hb1. simpl in *.
  split_and!; try done.
  - rewrite Hc. destruct out as [[r|]|[| |message]]; split; done.
  - intros ->. done.
Qed.

(** *** What holds in every reachable state *)

(** X3. Along every run the engine handles are used in order: a handle is
    created only when the one before it has been released, it is
    configured and applied to only between its creation and its release,
    and it is released once (the log passes [handles_from], ending with
    the handle the component still holds while it is mounted, and with
    none after the unmount).  In particular, after the release of a handle
    the log never mentions that handle again. *)
Theorem handles_released_once_and_last w :
  reachable w ->
  handles_from None 0 (log w) = Some (live_handle w, nextHandle (host w)) /\
  (alive (host w) = false -> live_handle w = None) /\
  (forall l1 h l2, log w = l1 ++ EvFree h :: l2 ->
     Forall (fun e => handle_of e <> Some h) l2).
Proof.
  intros Hr. destruct (reachable_inv2 w Hr) as (_ & Hh & _).
  split_and!.
  - done.
  - intros Ha. unfold live_handle. by rewrite Ha.
  - intros l1 h l2 Hl. rewrite Hl in Hh.
    by eapply handles_from_released.
Qed.

(** X4. Along every run at most one socket is connecting or open: the one
    in [wsRef], created by the run of the connect effect that is current,
    for the symbol on screen, in a component that is mounted.  Every other
    socket has been closed. *)
Theorem one_socket_at_a_time w sid s :
  reachable w -> sessions (host w) !! sid = Some s ->
  is_shut (readyState s) = false ->
  mounted s = true /\ wsRef (refs w) = Some sid /\
  cleanupOf (host w) = Some sid /\ s_symbol s = symbol (st w) /\
  alive (host w) = true /\
  forall sid' s', sessions (host w) !! sid' = Some s' ->
    is_shut (readyState s') = false -> sid' = sid.
Proof.
  intros Hr Hs Hopen.
  destruct (reachable_inv w Hr) as (_ & Hone & Hact & _).
  destruct (reachable_inv2 w Hr) as (_ & _ & Hok & _).
  assert (Hmounted : forall i x, sessions (host w) !! i = Some x ->
            is_shut (readyState x) = false -> mounted x = true).
  { intros i x Hx Hnx. destruct (mounted x) eqn:Hm; [done|].
    specialize (Hok i x Hx Hm). congruence. }
  pose proof (Hmounted sid s Hs Hopen) as Hm.
  pose proof (Hone sid s Hs Hm) as Hc.
  destruct (Hact sid Hc) as (s0 & Hs0 & _ & Hsym & Hws & _ & Ha & _).
  assert (s0 = s) as -> by congruence.
  split_and!; try done.
  intros sid' s' Hs' Hopen'.
  pose proof (Hone sid' s' Hs' (Hmounted sid' s' Hs' Hopen')). congruence.
Qed.

(** X5. Along every run nothing ever waits: between two events the queue
    is empty, no message is in flight, no timer of the processor is
    pending and the overflow policy has dropped nothing; a payload that
    arrives on the socket of the current session is handed to the engine
    within the event that delivers it. *)
Theorem nothing_waits_between_events w :
  reachable w ->
  queue w = [] /\ processing w = false /\ timers (host w) = 0%nat /\
  dropped (log w) = [] /\
  forall sid s data, sessions (host w) !! sid = Some s -> mounted s = true ->
    exists b, book w = Some b /\
      log (step (WsMessage sid data) w) = log w ++ [EvApply (hid b) data 10] /\
      queue (step (WsMessage sid data) w) = [].
Proof.
  intros Hr.
  destruct (reachable_inv w Hr) as (Hq & Hone & Hact & _).
  destruct (reachable_inv2 w Hr) as ([Ht Hd] & _).
  pose proof Hq as [Hp Hq0].
  split_and!; try done.
  intros sid s data Hs Hm.
  destruct (Hact sid (Hone sid s Hs Hm)) as (_ & _ & _ & _ & _ & [b Hb] & _).
  exists b. split; [done|].
  simpl. unfold ws_onmessage. rewrite Hs, Hm. simpl.
  destruct (queueMessage_quiet_exact data w b Hq Hb) as (Hl & _).
  destruct (queueMessage_quiet data w Hq (ex_intro _ b Hb)) as ([_ Hq'] & _).
  done.
Qed.

Lemma unmounted_socket_inert w sid data :
  one_active w -> cleanupOf (host w) <> Some sid ->
  same_but_sockets w (step (WsOpen sid) w) /\
  same_but_sockets w (step (WsClose sid) w) /\
  step (WsMessage sid data) w = w /\
  step (WsError sid) w = w.
Proof.
  intros Hone Hne.
  assert (Hun : forall s, sessions (host w) !! sid = Some s ->
                  mounted s = false).
  { intros s Hs. destruct (mounted s) eqn:Hm; [|done].
    by specialize (Hone sid s Hs Hm). }
  simpl. unfold ws_onopen, ws_onclose, ws_onmessage, same_but_sockets.
  destruct (sessions (host w) !! sid) as [s|] eqn:Hs; [|done].
  rewrite (Hun s eq_refl). cells. simpl. rewrite !length_alter. done.
Qed.

(** X6. Along every run the events of a socket other than the one of the
    current session change nothing but the state of that socket: its
    opening sends no subscription and does not raise the connection
    indicator, its closing does not lower it, a payload it delivers is
    not queued, and its errors are only logged to the console. *)
Theorem other_sockets_change_nothing w sid data :
  reachable w -> cleanupOf (host w) <> Some sid ->
  same_but_sockets w (step (WsOpen sid) w) /\
  same_but_sockets w (step (WsClose sid) w) /\
  step (WsMessage sid data) w = w /\
  step (WsError sid) w = w.
Proof.
  intros Hr Hne. destruct (reachable_inv w Hr) as (_ & Hone & _).
  by apply unmounted_socket_inert.
Qed.

(** X7. [currentSymbolRef] always holds the symbol on screen.  Until the
    SDK is ready nothing is created, whatever symbols are picked: no
    engine, no socket, an empty log.  When [init()] then resolves in a
    mounted component, one engine and one socket are created, for the
    symbol picked last. *)
Theorem first_session_waits_for_the_sdk w :
  reachable w ->
  currentSymbolRef (refs w) = symbol (st w) /\
  (sdkReady (st w) = false ->
     pristine w /\
     (alive (host w) = true ->
        let w' := step InitResolved w in
        let sym := symbol (st w) in
        log w' = [EvCreate 0 sym 25;
                  EvSetPrecision 0 (precision_of sym).1 (precision_of sym).2;
                  EvNewSocket 0 WS_URL] /\
        sessions (host w') = [new_session sym] /\
        sdkReady (st w') = true /\ symbol (st w') = sym)).
Proof.
  intros Hr.
  destruct (reachable_inv2 w Hr) as (_ & Hh & _ & Hcur & _ & Hpr & _).
  split; [done|]. intros Hnr.
  pose proof (Hpr Hnr) as Hp. split; [done|].
  destruct Hp as (Hl0 & Hs0 & Hb0 & Hw0 & Hc0).
  intros Ha. simpl. unfold init_resolved. rewrite Ha, Hnr. simpl.
  rewrite Hl0 in Hh. simpl in Hh. injection Hh as _ Hn.
  destruct (rerun_connect_cells (setSdkReady true w) eq_refl)
    as (_ & Hst & _ & _ & _ & _ & _ & Hss & Hl & _).
  unfold torn_down, retired in Hss. cells. simpl in Hss, Hl.
  rewrite Hw0, Hc0, Hs0 in Hss. rewrite Hl0, Hb0, Hw0, Hc0, Hs0, <- Hn in Hl.
  rewrite Hst. done.
Qed.

(** X8. The update counter stays between 0 and 2^53, and an event of a
    socket or of a timer leaves it or adds one to it. *)
Theorem update_counter_counts_up w :
  reachable w ->
  0 <= updateCount (st w) <= 2 ^ 53 /\
  forall i, traffic i = true -> enabled i w ->
    updateCount (st w) <= updateCount (st (step i w))
      <= updateCount (st w) + 1.
Proof.
  intros Hr.
  destruct (reachable_inv w Hr) as (Hq & Hone & Hact & _).
  destruct (reachable_inv2 w Hr) as ([Ht _] & _ & _ & _ & Hcount & _).
  split; [done|].
  intros i Hti Hen.
  destruct i as [|s| |sid|sid data|sid|sid|]; try done; simpl.
  - destruct Hen as (s & Hs & _).
    destruct (ws_onopen_cells sid s w Hs)
      as (_ & _ & _ & _ & _ & _ & _ & _ & _ & (_ & _ & _ & _ & ->) & _).
    lia.
  - destruct Hen as (s & Hs & _). unfold ws_onmessage. rewrite Hs.
    destruct (mounted s) eqn:Hm; simpl; [|lia].
    destruct (Hact sid (Hone sid s Hs Hm))
      as (_ & _ & _ & _ & _ & [b Hb] & _).
    destruct (queueMessage_quiet_exact data w b Hq Hb) as (_ & _ & ->).
    by destruct (classified_count (snd (apply_and_get (eng b) data 10)) w
                   Hcount) as (_ & ? & _).
  - destruct Hen as (s & Hs & _).
    destruct (ws_onclose_cells sid s w Hs)
      as (_ & _ & _ & _ & _ & _ & _ & _ & _ & (_ & _ & _ & _ & ->) & _).
    lia.
  - unfold ws_onerror. lia.
  - simpl in Hen. lia.
Qed.

(** X9. The unmount is final: in a component that has been unmounted no
    later event changes what is published, the refs or the log; no engine
    call is made, nothing is sent, no timer is set. *)
Theorem unmount_is_final ins : forall w,
  reachable w -> alive (host w) = false -> valid ins w ->
  same_but_sockets w (run ins w).
Proof.
  induction ins as [|i ins IH]; intros w Hr Ha Hv.
  { unfold same_but_sockets. done. }
  destruct Hv as [Hen Hv].
  change (run (i :: ins) w) with (run ins (step i w)).
  assert (Hstep : same_but_sockets w (step i w)).
  { destruct (reachable_inv2 w Hr) as ([Ht _] & _ & _ & _ & _ & _ & Hdead).
    destruct (reachable_inv w Hr) as (_ & Hone & _).
    assert (Hne : forall sid, cleanupOf (host w) <> Some sid)
      by (intros sid; by rewrite (Hdead Ha)).
    destruct i as [|s| |sid|sid data|sid|sid|].
    - simpl. unfold init_resolved. by rewrite Ha.
    - destruct Hen as [Ha' _]. congruence.
    - simpl in Hen. congruence.
    - by destruct (unmounted_socket_inert w sid EmptyString Hone (Hne sid))
        as (? & _).
    - destruct (unmounted_socket_inert w sid data Hone (Hne sid))
        as (_ & _ & -> & _). unfold same_but_sockets. done.
    - by destruct (unmounted_socket_inert w sid EmptyString Hone (Hne sid))
        as (_ & ? & _).
    - unfold same_but_sockets. done.
    - simpl in Hen. lia. }
  assert (Ha' : alive (host (step i w)) = false).
  { destruct Hstep as (_ & _ & _ & _ & _ & _ & -> & _). done. }
  specialize (IH (step i w) (reach_step w i Hr Hen) Ha' Hv).
  unfold same_but_sockets in *.
  destruct Hstep as (?&?&?&?&?&?&?&?), IH as (?&?&?&?&?&?&?&?).
  split_and!; congruence.
Qed.

(** *** The socket at the time of the subscription *)

Lemma awaiting_open_torn_down w (l : list Session) :
  one_active w -> sessions (host w) = sessions (host w) ->
  forall sid s, (torn_down w ++ l) !! sid = Some s -> mounted s = true ->
    exists s', l !! (sid - length (torn_down w))%nat = Some s' /\ s' = s.
Proof.
  intros Hone _ sid s Hs Hm.
  apply lookup_app_Some in Hs as [Hs|[_ Hs]].
  - apply (torn_down_unmounted w Hone) in Hs. congruence.
  - by exists s.
Qed.

Lemma step_awaiting_open i w :
  Inv w -> awaiting_open w -> enabled i w -> awaiting_open (step i w).
Proof.
  intros HI Hw Hen. pose proof HI as (Hq & Hone & Hact & _).
  assert (Hrerun : forall w0 : World E,
    one_active w0 -> awaiting_open w0 -> awaiting_open (fst (rerun_connect w0))).
  { intros w0 Hone0 Hw0. destruct (sdkReady (st w0)) eqn:Hr.
    - destruct (rerun_connect_cells w0 Hr)
        as (_ & _ & _ & _ & _ & _ & _ & Hss & _).
      intros sid s. rewrite Hss. intros Hs Hm Ho.
      destruct (awaiting_open_torn_down w0 _ Hone0 eq_refl sid s Hs Hm)
        as (s' & Hs' & ->).
      destruct (sid - length (torn_down w0))%nat; [|done].
      injection Hs' as <-. by left.
    - rewrite rerun_connect_eq. unfold connect_effect.
      destruct (after_cleanup_cells w0) as (Hst & _ & Hss & _).
      rewrite Hst, Hr. cbn [negb fst]. intros sid s.
      change (sessions (host (set_cleanupOf None (after_cleanup w0))))
        with (sessions (host (after_cleanup w0))).
      rewrite Hss. intros Hs Hm.
      apply (retired_unmounted w0 sid s Hone0) in Hs. congruence. }
  destruct i as [|s| |sid|sid data|sid|sid|]; simpl.
  - unfold init_resolved.
    destruct (alive (host w) && negb (sdkReady (st w))); [|done].
    by apply Hrerun.
  - unfold handleSymbolChange. case_bool_decide; [|done]. by apply Hrerun.
  - destruct (unmount_cells w) as (_ & _ & _ & _ & _ & _ & Hss & _).
    intros sid s. rewrite Hss. intros Hs Hm.
    apply (torn_down_unmounted w Hone) in Hs. congruence.
  - destruct Hen as (s & Hs & _).
    destruct (ws_onopen_cells sid s w Hs) as (_ & Hss & _).
    intros i s'. rewrite Hss. destruct (decide (sid = i)) as [->|Hne].
    + rewrite list_lookup_alter_eq, Hs. by intros [= <-].
    + rewrite list_lookup_alter_ne by done. apply Hw.
  - unfold ws_onmessage.
    destruct (sessions (host w) !! sid) as [s|] eqn:Hs; [|done].
    destruct (mounted s) eqn:Hm; [|done]. simpl.
    destruct (Hact sid (Hone sid s Hs Hm)) as (_ & _ & _ & _ & _ & Hb & _).
    destruct (queueMessage_quiet data w Hq Hb) as (_ & (Hss & _) & _).
    intros i s'. rewrite Hss. apply Hw.
  - destruct Hen as (s & Hs & _).
    destruct (ws_onclose_cells sid s w Hs) as (_ & Hss & _).
    intros i s'. rewrite Hss. destruct (decide (sid = i)) as [->|Hne].
    + rewrite list_lookup_alter_eq, Hs. intros [= <-]. by right.
    + rewrite list_lookup_alter_ne by done. apply Hw.
  - done.
  - rewrite timer_fires_quiet by done. done.
Qed.

Lemma reachable_awaiting_open w : reachable w -> awaiting_open w.
Proof.
  induction 1 as [|w i Hr IH Hen]; [by intros sid s Hs|].
  apply step_awaiting_open; [by apply reachable_inv|done..].
Qed.

(** X10. When the open event of the current socket arrives, the socket is
    connecting, so that it is open when the handler sends the
    subscription; and [close()] has not been called on it. *)
Theorem subscription_goes_to_an_open_socket w sid s :
  reachable w -> sessions (host w) !! sid = Some s -> mounted s = true ->
  enabled (WsOpen sid) w ->
  readyState s = CONNECTING /\
  exists s', sessions (host (step (WsOpen sid) w)) !! sid = Some s' /\
    readyState s' = OPEN /\ mounted s' = true /\
    log (step (WsOpen sid) w)
    = log w ++ [EvSend sid (subscribe_request (s_symbol s))].
Proof.
  intros Hr Hs Hm (s0 & Hs0 & Ho & Hnc).
  assert (s0 = s) as -> by congruence.
  destruct (reachable_awaiting_open w Hr sid s Hs Hm Ho) as [Hc|Hc]; [|done].
  split; [done|].
  destruct (ws_onopen_cells sid s w Hs)
    as (_ & Hss & _ & _ & _ & _ & _ & _ & _ & _ & _ & Hl).
  exists (opening s). simpl. rewrite Hss, list_lookup_alter_eq, Hs, Hl, Hm.
  split_and!; try done. simpl. by rewrite Hc.
Qed.

End MoreQueuedFacts.

(** ** Properties of what is displayed *)

Section DisplayFacts.

Import Display.

(** *** Digits *)

Lemma digit_value_digit d : 0 <= d < 10 -> digit_value (digit d) = d.
Proof.
  intros Hd. unfold digit_value, digit.
  rewrite nat_ascii_embedding by lia. lia.
Qed.

Lemma is_digit_digit d : 0 <= d < 10 -> is_digit (digit d).
Proof. intros Hd. unfold is_digit. by rewrite digit_value_digit. Qed.

Lemma foldl_value (l : list ascii) : forall acc,
  foldl (fun acc c => 10 * acc + digit_value c) acc l
  = acc * 10 ^ Z.of_nat (length l) + value_of l.
Proof.
  unfold value_of.
  induction l as [|c l IH]; intros acc; simpl; [lia|].
  rewrite IH, (IH (10 * 0 + digit_value c)).
  rewrite Nat2Z.inj_succ, Z.pow_succ_r by lia. lia.
Qed.

Lemma value_of_app (a b : list ascii) :
  value_of (a ++ b) = value_of a * 10 ^ Z.of_nat (length b) + value_of b.
Proof. unfold value_of at 1. rewrite foldl_app. apply foldl_value. Qed.

Lemma value_of_bounds (l : list ascii) :
  Forall is_digit l -> 0 <= value_of l < 10 ^ Z.of_nat (length l).
Proof.
  induction l as [|c l IH] using rev_ind; intros Hl; [done|].
  apply Forall_app in Hl as [Hl Hc].
  apply (proj1 (Forall_singleton _ _)) in Hc.
  specialize (IH Hl). unfold is_digit in Hc.
  rewrite value_of_app, length_app.
  change (value_of [c]) with (10 * 0 + digit_value c).
  rewrite Nat2Z.inj_add, Z.pow_add_r by lia.
  change (Z.of_nat (length [c])) with 1. rewrite Z.pow_1_r.
  set (P := 10 ^ Z.of_nat (length l)) in *. lia.
Qed.

Lemma value_of_zeros n : value_of (replicate n "0"%char) = 0.
Proof.
  induction n as [|n IH]; [done|].
  change (replicate (S n) "0"%char) with ([ "0"%char ] ++ replicate n "0"%char).
  rewrite value_of_app, IH. done.
Qed.

Lemma digits_fuel_spec fuel : forall n acc,
  0 <= n < 10 ^ Z.of_nat fuel -> (0 < fuel)%nat ->
  exists ds, digits_fuel fuel n acc = ds ++ acc /\
    Forall is_digit ds /\ value_of ds = n /\ ds <> [].
Proof.
  induction fuel as [|k IH]; intros n acc Hn Hk; [lia|].
  simpl. destruct (n <? 10) eqn:Hlt.
  - apply Z.ltb_lt in Hlt. exists [digit (n mod 10)].
    rewrite Z.mod_small by lia.
    split_and!; [done| | |done].
    + apply Forall_singleton. apply is_digit_digit. lia.
    + change (value_of [digit n]) with (10 * 0 + digit_value (digit n)).
      rewrite digit_value_digit by lia. lia.
  - apply Z.ltb_ge in Hlt.
    assert (Hk' : (0 < k)%nat).
    { destruct k; [|lia]. simpl in Hn. lia. }
    destruct (IH (n / 10) (digit (n mod 10) :: acc)) as (ds & -> & Hd & Hv & _).
    { rewrite Nat2Z.inj_succ, Z.pow_succ_r in Hn by lia.
      split; [apply Z.div_pos; lia|].
      apply Z.div_lt_upper_bound; lia. }
    { done. }
    exists (ds ++ [digit (n mod 10)]). split_and!.
    + by rewrite <- app_assoc.
    + apply Forall_app. split; [done|]. apply Forall_singleton.
      apply is_digit_digit. apply Z.mod_pos_bound. lia.
    + rewrite value_of_app, Hv.
      change (Z.of_nat (length [digit (n mod 10)])) with 1.
      rewrite Z.pow_1_r.
      change (value_of [digit (n mod 10)])
        with (10 * 0 + digit_value (digit (n mod 10))).
      rewrite digit_value_digit by (apply Z.mod_pos_bound; lia).
      pose proof (Z.div_mod n 10). lia.
    + by destruct ds.
Qed.

Lemma decimal_spec n :
  0 <= n ->
  Forall is_digit (decimal n) /\ value_of (decimal n) = n /\ decimal n <> [].
Proof.
  intros Hn. unfold decimal.
  destruct (digits_fuel_spec (S (Z.to_nat (Z.log2 n))) n [])
    as (ds & Hds & Hd & Hv & Hne); [|lia|].
  - split; [done|].
    rewrite Nat2Z.inj_succ, Z2Nat.id by apply Z.log2_nonneg.
    destruct (decide (n = 0)) as [->|Hpos]; [done|].
    assert (n < 2 ^ Z.succ (Z.log2 n)) by (apply Z.log2_spec; lia).
    assert (2 ^ Z.succ (Z.log2 n) <= 10 ^ Z.succ (Z.log2 n)).
    { apply Z.pow_le_mono_l. lia. }
    lia.
  - rewrite app_nil_r in Hds. by rewrite Hds.
Qed.

Lemma is_digit_zero : is_digit "0"%char.
Proof. by vm_compute. Qed.

(** *** The nearest integer *)

Lemma nearest_bounds f x :
  (inject_Z (nearest f x) - (1 # 2)
     <= x * inject_Z (10 ^ Z.of_nat f))%Q /\
  (x * inject_Z (10 ^ Z.of_nat f)
     < inject_Z (nearest f x) + (1 # 2))%Q.
Proof.
  unfold nearest.
  set (z := (x * inject_Z (10 ^ Z.of_nat f))%Q).
  pose proof (Qfloor_le (z + (1 # 2))) as Hle.
  pose proof (Qlt_floor (z + (1 # 2))) as Hlt.
  rewrite inject_Z_plus in Hlt. change (inject_Z 1) with 1%Q in Hlt.
  set (n := inject_Z (Qfloor (z + (1 # 2)))) in *.
  clearbody n z. split; lra.
Qed.

Lemma nearest_nonneg f x : (0 <= x)%Q -> 0 <= nearest f x.
Proof.
  intros Hx. unfold nearest.
  change 0 with (Qfloor 0). apply Qfloor_resp_le.
  assert (0 <= inject_Z (10 ^ Z.of_nat f))%Q.
  { change 0%Q with (inject_Z 0). rewrite <- Zle_Qle. lia. }
  assert (0 <= x * inject_Z (10 ^ Z.of_nat f))%Q by by apply Qmult_le_0_compat.
  set (z := (x * inject_Z (10 ^ Z.of_nat f))%Q) in *. clearbody z. lra.
Qed.

(** *** [toFixed], for a number that is not negative *)

Lemma fixed_digits_spec f x :
  (0 < f)%nat -> (0 <= x)%Q ->
  exists I F, fixed_digits f x = I ++ "."%char :: F /\
    length F = f /\ I <> [] /\ Forall is_digit (I ++ F) /\
    value_of (I ++ F) = nearest f x.
Proof.
  intros Hf Hx. unfold fixed_digits.
  rewrite bool_decide_false by lia.
  destruct (decimal_spec (nearest f x) (nearest_nonneg f x Hx))
    as (Hd & Hv & Hne).
  set (m := replicate (f + 1 - length (decimal (nearest f x))) "0"%char
            ++ decimal (nearest f x)).
  assert (Hlen : (f + 1 <= length m)%nat).
  { subst m. rewrite length_app, length_replicate. lia. }
  exists (take (length m - f) m), (drop (length m - f) m).
  split_and!.
  - done.
  - rewrite length_drop. lia.
  - intros Hnil. apply (f_equal length) in Hnil.
    rewrite length_take in Hnil. simpl in Hnil. lia.
  - rewrite take_drop. subst m. apply Forall_app. split; [|done].
    apply Forall_replicate. apply is_digit_zero.
  - rewrite take_drop. subst m. rewrite value_of_app, value_of_zeros. lia.
Qed.

Lemma toFixed_spec f x :
  (0 < f)%nat -> (0 <= x)%Q -> (x < inject_Z (10 ^ 21))%Q ->
  exists I F,
    toFixed f x = Some (String.string_of_list_ascii (I ++ "."%char :: F)) /\
    length F = f /\ I <> [] /\ Forall is_digit (I ++ F) /\
    (inject_Z (value_of (I ++ F)) - (1 # 2)
       <= x * inject_Z (10 ^ Z.of_nat f))%Q /\
    (x * inject_Z (10 ^ Z.of_nat f)
       < inject_Z (value_of (I ++ F)) + (1 # 2))%Q.
Proof.
  intros Hf Hx Hbig.
  destruct (fixed_digits_spec f x Hf Hx) as (I & F & Hfd & Hlen & Hne & Hd & Hv).
  exists I, F. unfold toFixed.
  assert (Hpos : Qle_bool 0 x = true) by by apply Qle_bool_iff.
  rewrite Hpos. simpl.
  assert (Hsmall : Qle_bool (inject_Z (10 ^ 21)) x = false).
  { destruct (Qle_bool (inject_Z (10 ^ 21)) x) eqn:Hq; [|done].
    apply Qle_bool_iff in Hq. lra. }
  rewrite Hsmall, Hfd, Hv.
  split_and!; try done; apply nearest_bounds.
Qed.


(** *** Prices on screen *)

(** X11. For a price from zero up to 10^21, [formatPrice] writes digits, a
    point and more digits: two after the point from 1000 on, four from 1
    on, six below 1.  Read as a number, what it writes is the price
    rounded to that many decimals, a half rounded up. *)
Theorem formatPrice_rounds_the_price p :
  (0 <= p)%Q -> (p < inject_Z (10 ^ 21))%Q ->
  let f := if Qle_bool 1000 p then 2%nat
           else if Qle_bool 1 p then 4%nat else 6%nat in
  exists I F,
    formatPrice p = Some (String.string_of_list_ascii (I ++ "."%char :: F)) /\
    length F = f /\ I <> [] /\ Forall is_digit (I ++ F) /\
    (inject_Z (value_of (I ++ F)) - (1 # 2)
       <= p * inject_Z (10 ^ Z.of_nat f))%Q /\
    (p * inject_Z (10 ^ Z.of_nat f)
       < inject_Z (value_of (I ++ F)) + (1 # 2))%Q.
Proof.
  intros Hp Hbig. unfold formatPrice.
  destruct (Qle_bool 1000 p); [|destruct (Qle_bool 1 p)];
    cbv zeta; apply toFixed_spec; (lia || done).
Qed.

(** X12. The "Mid Price" and "Spread" cards show a dash when the value is
    undefined and also when it is exactly zero.  For a value above zero
    and below 10^21 they show a dollar sign and the value rounded, a half
    up, to two decimals from 100 on, four from 1 on, five from 0.01 on and
    six below. *)
Theorem stat_card_shows x :
  match x with
  | None => stat_value x = Some "-"
  | Some q =>
      ((q == 0)%Q -> stat_value x = Some "-") /\
      ((0 < q)%Q -> (q < inject_Z (10 ^ 21))%Q ->
         let f := if Qle_bool 100 q then 2%nat
                  else if Qle_bool 1 q then 4%nat
                  else if Qle_bool (1 # 100) q then 5%nat else 6%nat in
         exists I F,
           stat_value x
           = Some (String "$"
                     (String.string_of_list_ascii (I ++ "."%char :: F))) /\
           length F = f /\ I <> [] /\ Forall is_digit (I ++ F) /\
           (inject_Z (value_of (I ++ F)) - (1 # 2)
              <= q * inject_Z (10 ^ Z.of_nat f))%Q /\
           (q * inject_Z (10 ^ Z.of_nat f)
              < inject_Z (value_of (I ++ F)) + (1 # 2))%Q)
  end.
Proof.
  destruct x as [q|]; [|done]. split.
  - intros Hq. unfold stat_value, truthy.
    apply Qeq_bool_iff in Hq. by rewrite Hq.
  - intros Hpos Hbig f. unfold stat_value, truthy.
    assert (Hnz : Qeq_bool q 0 = false).
    { destruct (Qeq_bool q 0) eqn:Hq; [|done].
      apply Qeq_bool_iff in Hq. lra. }
    rewrite Hnz. simpl.
    assert (Hspec : exists I F,
      formatStatPrice q
      = Some (String.string_of_list_ascii (I ++ "."%char :: F)) /\
      length F = f /\ I <> [] /\ Forall is_digit (I ++ F) /\
      (inject_Z (value_of (I ++ F)) - (1 # 2)
         <= q * inject_Z (10 ^ Z.of_nat f))%Q /\
      (q * inject_Z (10 ^ Z.of_nat f)
         < inject_Z (value_of (I ++ F)) + (1 # 2))%Q).
    { subst f. unfold formatStatPrice.
      destruct (Qle_bool 100 q);
        [|destruct (Qle_bool 1 q); [|destruct (Qle_bool (1 # 100) q)]];
        apply toFixed_spec; (lia || done || lra). }
    destruct Hspec as (I & F & -> & Hrest). by exists I, F.
Qed.

(** *** The depth bars *)

Lemma math_max_spec a b :
  (a <= math_max a b)%Q /\ (b <= math_max a b)%Q /\
  (math_max a b = a \/ math_max a b = b).
Proof.
  unfold math_max. destruct (Qle_bool a b) eqn:Hab.
  - apply Qle_bool_iff in Hab. split_and!; [done|lra|by right].
  - assert (~ (a <= b)%Q) by (intros Hle; apply Qle_bool_iff in Hle; congruence).
    split_and!; [lra|lra|by left].
Qed.

Lemma foldr_math_max (l : list num) :
  (1 <= foldr math_max 1%Q l)%Q /\
  (forall q, q ∈ l -> (q <= foldr math_max 1%Q l)%Q) /\
  (foldr math_max 1%Q l = 1%Q \/ foldr math_max 1%Q l ∈ l).
Proof.
  induction l as [|a l (IH1 & IH2 & IH3)]; simpl.
  { split_and!; [lra| |by left]. intros q Hq. by apply elem_of_nil in Hq. }
  destruct (math_max_spec a (foldr math_max 1%Q l)) as (Ha & Hb & Hc).
  split_and!.
  - lra.
  - intros q [->|Hq]%elem_of_cons; [done|]. specialize (IH2 q Hq). lra.
  - destruct Hc as [->| ->].
    + right. by left.
    + destruct IH3 as [?|?]; [by left|right; by right].
Qed.

(** X13. The scale of the depth bars is at least 1 and at least every
    quantity on either side, and it is 1 or one of those quantities.  So
    the bar of a row with a quantity that is not negative is between 0 and
    100 per cent wide, and the division in [OrderRow] is never by zero. *)
Theorem depth_bars_fit (bids asks : list (num * num)) :
  let M := maxQty bids asks in
  (1 <= M)%Q /\
  (M = 1%Q \/ exists p, (p, M) ∈ bids ++ asks) /\
  forall p q, (p, q) ∈ bids ++ asks ->
    (q <= M)%Q /\
    ((0 <= q)%Q -> (0 <= pct q M)%Q /\ (pct q M <= 100)%Q).
Proof.
  intros M. subst M. unfold maxQty. rewrite <- fmap_app.
  destruct (foldr_math_max (snd <$> (bids ++ asks))) as (H1 & Hall & Hatt).
  set (M := foldr math_max 1%Q (snd <$> (bids ++ asks))) in *.
  split_and!.
  - done.
  - destruct Hatt as [?|Hin]; [by left|right].
    apply list_elem_of_fmap in Hin as ([p q] & HM & Hin). simpl in HM.
    exists p. by rewrite HM.
  - intros p q Hin.
    assert (Hq : (q <= M)%Q).
    { apply Hall. apply list_elem_of_fmap. by exists (p, q). }
    split; [done|]. intros Hq0. unfold pct.
    assert (HM : (0 < M)%Q) by lra.
    assert (Hdiv0 : (0 <= q / M)%Q).
    { apply Qle_shift_div_l; [done|]. lra. }
    assert (Hdiv1 : (q / M <= 1)%Q).
    { apply Qle_shift_div_r; [done|]. lra. }
    set (r := (q / M)%Q) in *. clearbody r. split; lra.
Qed.

End DisplayFacts.

(** ** Further properties on concrete inputs *)

Section MoreRuns.

Import Queued.

Local Abbreviation W := (World Demo.Book).

Ltac computed := vm_compute; reflexivity.

Lemma showing_reachable : reachable Demo.showing.
Proof.
  unfold Demo.showing. apply reachable_run; [apply live_reachable|].
  apply validb_sound. computed.
Qed.

Lemma processor_publishes_by_class_witness :
  st (fst (processNextMessage (Demo.waiting ["subscribed"])))
  = st (Demo.waiting ["subscribed"]).
Proof.
  exact (processor_publishes_by_class (Demo.waiting ["subscribed"])
           "subscribed" [] {| hid := 0%nat; eng := Demo.empty_book |}
           Demo.empty_book
           (Returns (Some (Demo.result_of Demo.empty_book "status" 10)))
           ltac:(computed) ltac:(computed) ltac:(computed) ltac:(computed)).
Defined.

Lemma processor_always_finishes_witness :
  let w : W := Demo.waiting ["corrupt"; "snapshot"] in
  queue (fst (processNextMessage w)) = ["snapshot"] /\
  processing (fst (processNextMessage w)) = false /\
  timers (host (fst (processNextMessage w))) = S (timers (host w)).
Proof.
  intros w.
  destruct (processor_always_finishes w "corrupt" ["snapshot"]
              {| hid := 0%nat; eng := Demo.empty_book |} Demo.empty_book
              (Throws (ThrownError "Checksum mismatch: expected 1, got 2"))
              ltac:(computed) ltac:(computed) ltac:(computed)
              ltac:(computed))
    as (Hq & Hp & _ & _ & Ht & _).
  split; [exact Hq|]. split; [exact Hp|exact Ht].
Defined.

Lemma switched_and_gone_reachable :
  reachable (run [Select "ETH/USD"; Unmount] Demo.showing : W).
Proof.
  apply reachable_run; [apply showing_reachable|].
  apply validb_sound. computed.
Qed.

Lemma handles_released_once_and_last_witness :
  handles_from None 0
    (log (run [Select "ETH/USD"; Unmount] Demo.showing : W))
  = Some (None, 2%nat).
Proof.
  destruct (handles_released_once_and_last _ switched_and_gone_reachable)
    as (Hh & _).
  rewrite Hh. computed.
Defined.

Lemma one_socket_at_a_time_witness : wsRef (refs Demo.live) = Some 0%nat.
Proof.
  destruct (one_socket_at_a_time Demo.live 0%nat
              {| s_symbol := "BTC/USD"; mounted := true;
                 readyState := OPEN; opened := true |}
              live_reachable ltac:(computed) ltac:(computed))
    as (_ & Hws & _).
  exact Hws.
Defined.

Lemma nothing_waits_between_events_witness :
  queue Demo.showing = [] /\ timers (host Demo.showing) = 0%nat.
Proof.
  destruct (nothing_waits_between_events Demo.showing showing_reachable)
    as (Hq & _ & Ht & _).
  split; [exact Hq|exact Ht].
Defined.

Lemma switched_reachable : reachable (run [Select "ETH/USD"] Demo.live : W).
Proof.
  apply reachable_run; [apply live_reachable|].
  apply validb_sound. computed.
Qed.

Lemma other_sockets_change_nothing_witness :
  let w : W := run [Select "ETH/USD"] Demo.live in
  step (WsMessage 0%nat "snapshot") w = w.
Proof.
  intros w.
  destruct (other_sockets_change_nothing w 0%nat "snapshot"
              switched_reachable)
    as (_ & _ & Hm & _).
  - intros Heq. vm_compute in Heq. discriminate Heq.
  - exact Hm.
Defined.

Lemma picked_early_reachable :
  reachable (run [Select "ETH/USD"] initial : W).
Proof.
  apply reachable_run; [apply reach_initial|].
  apply validb_sound. computed.
Qed.

Lemma first_session_waits_for_the_sdk_witness :
  log (step InitResolved (run [Select "ETH/USD"] initial : W))
  = [EvCreate 0 "ETH/USD" 25; EvSetPrecision 0 2 8; EvNewSocket 0 WS_URL].
Proof.
  destruct (first_session_waits_for_the_sdk _ picked_early_reachable)
    as (_ & Hearly).
  destruct (Hearly ltac:(computed)) as (_ & Hinit).
  destruct (Hinit ltac:(computed)) as (Hl & _).
  rewrite Hl. computed.
Defined.

Lemma update_counter_counts_up_witness :
  0 <= updateCount (st Demo.showing) <= 2 ^ 53.
Proof.
  destruct (update_counter_counts_up Demo.showing showing_reachable)
    as (Hc & _).
  exact Hc.
Defined.

Lemma gone_reachable : reachable Demo.gone.
Proof.
  unfold Demo.gone. apply reachable_run; [apply live_reachable|].
  apply validb_sound. computed.
Qed.

Lemma unmount_is_final_witness :
  let ins := [WsMessage 0%nat "snapshot"; WsClose 0%nat] in
  st (run ins Demo.gone) = st Demo.gone /\
  log (run ins Demo.gone) = log Demo.gone.
Proof.
  intros ins.
  destruct (unmount_is_final ins Demo.gone gone_reachable ltac:(computed))
    as (Hst & _ & Hl & _).
  - apply validb_sound. computed.
  - split; [exact Hst|exact Hl].
Defined.

Lemma subscription_goes_to_an_open_socket_witness :
  log (step (WsOpen 0) (step InitResolved initial : W))
  = log (step InitResolved initial : W)
    ++ [EvSend 0 (subscribe_request "BTC/USD")].
Proof.
  assert (Hr : reachable (step InitResolved initial : W)).
  { apply (reach_step (initial : W) InitResolved reach_initial I). }
  destruct (subscription_goes_to_an_open_socket
              (step InitResolved initial : W) 0%nat (new_session "BTC/USD")
              Hr ltac:(computed) ltac:(computed))
    as (_ & s' & _ & _ & _ & Hl).
  - apply enabledb_sound. computed.
  - exact Hl.
Defined.

Lemma formatPrice_rounds_the_price_witness :
  exists I F,
    Display.formatPrice (976543 # 100)
    = Some (String.string_of_list_ascii (I ++ "."%char :: F)) /\
    length F = 2%nat.
Proof.
  destruct (formatPrice_rounds_the_price (976543 # 100))
    as (I & F & Hs & Hlen & _).
  - apply Qle_bool_iff. computed.
  - unfold Qlt. simpl. lia.
  - exists I, F. split; [exact Hs|]. rewrite Hlen. computed.
Defined.

Lemma stat_card_shows_witness :
  Display.stat_value (Some (0 # 5)) = Some "-".
Proof.
  destruct (stat_card_shows (Some (0 # 5))) as [Hzero _].
  apply Hzero. reflexivity.
Defined.

Lemma depth_bars_fit_witness :
  let bids := [(100, 2); ((199 # 2), 1)]%Q in
  let asks := [((201 # 2), (3 # 2)); (101, 3)]%Q in
  (Display.pct (3 # 2) (Display.maxQty bids asks) <= 100)%Q.
Proof.
  intros bids asks.
  destruct (depth_bars_fit bids asks) as (_ & _ & Hrows).
  destruct (Hrows (201 # 2)%Q (3 # 2)%Q) as (_ & Hbar).
  - apply list_elem_of_In. simpl. auto 6.
  - destruct Hbar as (_ & Hle); [|exact Hle].
    apply Qle_bool_iff. computed.
Defined.

End MoreRuns.
